(** * ReMind: semantic and size-constrained chunking of a textbook

    A shallow embedding of [src/server/retrieval/chunk_textbook.py]:
    the heading classifier, the segmenter and the size normaliser,
    followed by the properties of these functions.

    Text is a list of 8-bit characters (code points 0..255).  The
    character classes of Python's [str.isspace], and of [\s], [\d], [\w]
    and [re.IGNORECASE] in a [str] pattern, are the ones Python uses,
    restricted to that range.  Python's [int] is [Z]. *)

From Stdlib Require Import Ascii String ZArith Lia Bool List.
Import ListNotations.

Open Scope Z_scope.

(** ** Text primitives *)

Definition str := list ascii.

Definition str_of (s : string) : str := list_ascii_of_string s.

Module PyStr.

Definition code (c : ascii) : N := N_of_ascii c.

Definition in_range (lo hi : N) (c : ascii) : bool :=
  ((lo <=? code c) && (code c <=? hi))%N.

Definition is_code (n : N) (c : ascii) : bool := (code c =? n)%N.

(** [str.isspace] on one character, which is also [\s]:
    TAB..CR, FS..US, SPACE, NEL and NBSP. *)
Definition isspace (c : ascii) : bool :=
  in_range 9 13 c || in_range 28 32 c || is_code 133 c || is_code 160 c.

(** [\d]: the decimal digits. *)
Definition isdigit (c : ascii) : bool := in_range 48 57 c.

(** [str.isalnum] on one character. *)
Definition isalnum (c : ascii) : bool :=
  in_range 48 57 c || in_range 65 90 c || in_range 97 122 c
  || is_code 170 c || is_code 178 c || is_code 179 c || is_code 181 c
  || is_code 185 c || is_code 186 c || in_range 188 190 c
  || in_range 192 214 c || in_range 216 246 c || in_range 248 255 c.

(** [\w]: alphanumeric or underscore. *)
Definition isword (c : ascii) : bool := isalnum c || is_code 95 c.

(** Case folding of the letters a pattern made of ASCII letters can
    match under [re.IGNORECASE]. *)
Definition lower (c : ascii) : ascii :=
  if in_range 65 90 c then ascii_of_N (code c + 32) else c.

Definition ci_eqb (a b : ascii) : bool := Ascii.eqb (lower a) (lower b).

Definition is_newline (c : ascii) : bool := Ascii.eqb c "010"%char.

(** A Python string is true when it is not empty. *)
Definition truthy {A : Type} (s : list A) : bool :=
  match s with
  | [] => false
  | _ :: _ => true
  end.

Fixpoint lstrip_by (p : ascii -> bool) (s : str) : str :=
  match s with
  | [] => []
  | c :: s' => if p c then lstrip_by p s' else s
  end.

Fixpoint rstrip_by (p : ascii -> bool) (s : str) : str :=
  match s with
  | [] => []
  | c :: s' =>
      match rstrip_by p s' with
      | [] => if p c then [] else [c]
      | r => c :: r
      end
  end.

(** [s.strip()] *)
Definition strip (s : str) : str := lstrip_by isspace (rstrip_by isspace s).

(** [s.rstrip("\n")] *)
Definition rstrip_nl (s : str) : str := rstrip_by is_newline s.

(** The longest prefix whose characters satisfy [p], and the rest. *)
Fixpoint span (p : ascii -> bool) (s : str) : str * str :=
  match s with
  | [] => ([], [])
  | c :: s' =>
      if p c then let (a, b) := span p s' in (c :: a, b) else ([], s)
  end.

(** A word under construction is kept reversed. *)
Definition flush (cur : str) : list str :=
  match cur with
  | [] => []
  | _ :: _ => [rev cur]
  end.

Fixpoint split_from (cur : str) (s : str) : list str :=
  match s with
  | [] => flush cur
  | c :: s' =>
      if isspace c then flush cur ++ split_from [] s'
      else split_from (c :: cur) s'
  end.

(** [s.split()]: the maximal runs of characters that are not whitespace. *)
Definition split (s : str) : list str := split_from [] s.

(** [sep.join(l)] *)
Fixpoint join (sep : str) (l : list str) : str :=
  match l with
  | [] => []
  | x :: r =>
      match r with
      | [] => x
      | _ :: _ => x ++ sep ++ join sep r
      end
  end.

End PyStr.

Import PyStr.

(** ** Regular expressions of the module *)

Module Regex.

(** A literal under [re.IGNORECASE]; the result is what follows it. *)
Fixpoint match_ci (pat s : str) : option str :=
  match pat with
  | [] => Some s
  | p :: pat' =>
      match s with
      | [] => None
      | c :: s' => if ci_eqb c p then match_ci pat' s' else None
      end
  end.

Definition isword_opt (c : option ascii) : bool :=
  match c with
  | None => false
  | Some c => isword c
  end.

(** [\b] between the character before and the character after a
    position, either of which is missing at an end of the string. *)
Definition word_boundary (prev next : option ascii) : bool :=
  xorb (isword_opt prev) (isword_opt next).

(** The last character of [s], or [d] when [s] is empty. *)
Definition last_or (d : option ascii) (s : str) : option ascii :=
  fold_left (fun _ c => Some c) s d.

(** [\bGLOSSARY\b] with [re.IGNORECASE], tried at one position. *)
Definition glossary_at (prev : option ascii) (s : str) : bool :=
  word_boundary prev (hd_error s)
  && match match_ci (str_of "GLOSSARY") s with
     | None => false
     | Some rest =>
         word_boundary
           (last_or prev (firstn (length (str_of "GLOSSARY")) s))
           (hd_error rest)
     end.

Fixpoint glossary_from (prev : option ascii) (s : str) : bool :=
  glossary_at prev s
  || match s with
     | [] => false
     | c :: s' => glossary_from (Some c) s'
     end.

(** [GLOSSARY_RE.search(s)], as a truth value. *)
Definition GLOSSARY_RE_search (s : str) : bool := glossary_from None s.

Definition is_dot (c : ascii) : bool := Ascii.eqb c "."%char.

(** [CHAPTER_RE.match(s)] for [^\s*CHAPTER\s+(\d+)\.] with
    [re.IGNORECASE]; the result is group 1.  Every repetition is
    followed by an atom that none of its characters matches, so the
    greedy choice is the only one. *)
Definition CHAPTER_RE_match (s : str) : option str :=
  match match_ci (str_of "CHAPTER") (lstrip_by isspace s) with
  | None => None
  | Some s2 =>
      match s2 with
      | [] => None
      | c :: _ =>
          if isspace c then
            let (digits, s4) := span isdigit (lstrip_by isspace s2) in
            match digits, s4 with
            | _ :: _, d :: _ => if is_dot d then Some digits else None
            | _, _ => None
            end
          else None
      end
  end.

(** [\d*(?:\.\d+)*], greedy: the matched text, the rest and the number
    of [.digits] groups. *)
Fixpoint dotted (s : str) : str * str * nat :=
  match s with
  | [] => ([], [], O)
  | c :: s' =>
      if isdigit c then
        let '(l, r, n) := dotted s' in (c :: l, r, n)
      else if is_dot c then
        match s' with
        | d :: _ =>
            if isdigit d then
              let '(l, r, n) := dotted s' in (c :: l, r, S n)
            else ([], s, O)
        | [] => ([], s, O)
        end
      else ([], s, O)
  end.

(** [(.+)$]: characters other than a newline up to the end of the
    string, or up to a newline that ends it. *)
Definition title_end (s : str) : option str :=
  let (t, r) := span (fun c => negb (is_newline c)) s in
  match t with
  | [] => None
  | _ :: _ =>
      match r with
      | [] => Some t
      | [_] => Some t
      | _ :: _ :: _ => None
      end
  end.

(** [\s*(.+)$] after the first character of [\s+]: the longest run of
    whitespace first, then shorter ones. *)
Fixpoint ws_title (s : str) : option str :=
  match s with
  | [] => title_end []
  | c :: s' =>
      if isspace c then
        match ws_title s' with
        | Some t => Some t
        | None => title_end s
        end
      else title_end s
  end.

(** [SECTION_RE.match(s)] for [^\s*(\d+(?:\.\d+)+)\s+(.+)$]; the result
    is (group 1, group 2).  A shorter label would be followed by a digit
    or a dot, which [\s] does not match, so the longest label is the
    only one. *)
Definition SECTION_RE_match (s : str) : option (str * str) :=
  match lstrip_by isspace s with
  | [] => None
  | c :: s2 =>
      if isdigit c then
        let '(l, r, n) := dotted s2 in
        match n, r with
        | S _, w :: r' =>
            if isspace w then
              match ws_title r' with
              | Some t => Some (c :: l, t)
              | None => None
              end
            else None
        | _, _ => None
        end
      else None
  end.

Definition is_terminator (c : option ascii) : bool :=
  match c with
  | Some c => is_dot c || Ascii.eqb c "!"%char || Ascii.eqb c "?"%char
  | None => false
  end.

(** [re.split(r"(?<=[.!?])\s+", s)], scanning left to right.
    [skipping] holds inside a separator, [prev] is the character before
    the position and [cur] the piece under construction, reversed. *)
Fixpoint re_split_from (skipping : bool) (prev : option ascii)
    (cur : str) (s : str) : list str :=
  match s with
  | [] => [rev cur]
  | c :: s' =>
      if isspace c then
        if skipping then re_split_from true (Some c) cur s'
        else if is_terminator prev then
          rev cur :: re_split_from true (Some c) [] s'
        else re_split_from false (Some c) (c :: cur) s'
      else re_split_from false (Some c) (c :: cur) s'
  end.

Definition sentence_split (s : str) : list str :=
  re_split_from false None [] s.

End Regex.

Import Regex.

(** ** Segments *)

Record Segment := mkSegment {
  start_line : Z;
  end_line : Z;
  chapter : option str;
  section : option str;
  heading : option str;
  text_lines : list str
}.

(** [Segment.text] *)
Definition text (seg : Segment) : str :=
  join (str_of " ")
    (map strip (filter (fun line => truthy (strip line)) (text_lines seg))).

(** [Segment.word_count] *)
Definition word_count (seg : Segment) : Z :=
  if negb (truthy (text seg)) then 0
  else Z.of_nat (length (split (text seg))).

(** ** The heading classifier *)

Definition classify_heading (line : str) (current_chapter : option str)
  : option str * option str * option str :=
  let stripped := strip line in
  if GLOSSARY_RE_search stripped then
    (Some (str_of "Glossary"), None, Some (str_of "Glossary"))
  else
    match CHAPTER_RE_match stripped with
    | Some chapter_num =>
        (Some chapter_num, None, Some (str_of "Chapter " ++ chapter_num))
    | None =>
        match SECTION_RE_match stripped with
        | Some (label, title) => (current_chapter, Some label, Some (strip title))
        | None => (None, None, None)
        end
    end.


(** ** The segmenter *)

(** The local variables of [build_semantic_segments]; [idx] is unbound
    until the loop has run once. *)
Record scan_state := mkScan {
  segments : list Segment;
  current_chapter : option str;
  current_section : option str;
  current_heading : option str;
  current_lines : list str;
  current_start_line : Z;
  idx : option Z
}.

Definition scan_init : scan_state :=
  mkScan [] None None None [] 1 None.

Definition is_some {A : Type} (o : option A) : bool :=
  match o with
  | Some _ => true
  | None => false
  end.

Definition or_else {A : Type} (new old : option A) : option A :=
  match new with
  | Some _ => new
  | None => old
  end.

(** One iteration of the loop over [enumerate(lines, start=1)]. *)
Definition scan_step (i : Z) (line : str) (st : scan_state) : scan_state :=
  let '(chapter, section, heading) :=
    classify_heading line (current_chapter st) in
  let is_heading := is_some chapter || is_some section || is_some heading in
  if is_heading then
    let closed :=
      if truthy (current_lines st) then
        segments st ++
          [mkSegment (current_start_line st) (i - 1) (current_chapter st)
             (current_section st) (current_heading st) (current_lines st)]
      else segments st in
    let section_after_chapter :=
      match chapter, section with
      | Some _, None => None
      | _, _ => current_section st
      end in
    mkScan closed
      (or_else chapter (current_chapter st))
      (or_else section section_after_chapter)
      (or_else heading (current_heading st))
      [rstrip_nl line] i (Some i)
  else
    mkScan (segments st) (current_chapter st) (current_section st)
      (current_heading st) (current_lines st ++ [rstrip_nl line])
      (current_start_line st) (Some i).

Fixpoint scan_loop (i : Z) (lines : list str) (st : scan_state)
  : scan_state :=
  match lines with
  | [] => st
  | line :: rest => scan_loop (i + 1) rest (scan_step i line st)
  end.

Inductive result (A : Type) : Type :=
| Ok (a : A)
| UnboundLocalError.

Arguments Ok {A} a.
Arguments UnboundLocalError {A}.

(** The close of the final segment, which reads [idx]. *)
Definition close_final (st : scan_state) : result (list Segment) :=
  if truthy (current_lines st) then
    match idx st with
    | None => UnboundLocalError
    | Some i =>
        Ok (segments st ++
              [mkSegment (current_start_line st) i (current_chapter st)
                 (current_section st) (current_heading st) (current_lines st)])
    end
  else Ok (segments st).

(** The list [segments] as it is just before the [return]. *)
Definition closed_segments (lines : list str) : result (list Segment) :=
  close_final (scan_loop 1 lines scan_init).

Definition build_semantic_segments (lines : list str)
  : result (list Segment) :=
  match closed_segments lines with
  | Ok segs => Ok (filter (fun seg => 0 <? word_count seg) segs)
  | UnboundLocalError => UnboundLocalError
  end.

(** ** The size normaliser *)

Record split_state := mkSplit {
  chunks : list Segment;
  current_sentences : list str;
  current_wc : Z
}.

(** The sub-segment made of one group of sentences. *)
Definition group_segment (seg : Segment) (sentences : list str) : Segment :=
  mkSegment (start_line seg) (end_line seg) (chapter seg) (section seg)
    (heading seg) [join (str_of " ") sentences].

Definition split_step (seg : Segment) (max_words : Z) (st : split_state)
    (sent0 : str) : split_state :=
  let sent := strip sent0 in
  if negb (truthy sent) then st
  else
    let wc := Z.of_nat (length (split sent)) in
    if truthy (current_sentences st) && (current_wc st + wc >? max_words) then
      mkSplit (chunks st ++ [group_segment seg (current_sentences st)])
        [sent] wc
    else mkSplit (chunks st) (current_sentences st ++ [sent])
           (current_wc st + wc).

Definition split_finish (seg : Segment) (st : split_state) : list Segment :=
  if truthy (current_sentences st) then
    chunks st ++ [group_segment seg (current_sentences st)]
  else chunks st.

Definition split_large_segment (seg : Segment) (max_words : Z)
  : list Segment :=
  if word_count seg <=? max_words then [seg]
  else
    split_finish seg
      (fold_left (split_step seg max_words) (sentence_split (text seg))
         (mkSplit [] [] 0)).

(** [a or b] on optional strings: [a] unless it is [None] or empty. *)
Definition py_or (a b : option str) : option str :=
  match a with
  | Some (_ :: _) => a
  | _ => b
  end.

Definition combine_segments (buffer_seg seg : Segment) : Segment :=
  mkSegment (start_line buffer_seg) (end_line seg)
    (py_or (chapter buffer_seg) (chapter seg))
    (py_or (section buffer_seg) (section seg))
    (py_or (heading buffer_seg) (heading seg))
    (text_lines buffer_seg ++ text_lines seg).

(** The state of the first loop: [merged] and [buffer_seg]. *)
Definition merge_state : Type := list Segment * option Segment.

Definition flush_buffer (st : merge_state) : merge_state :=
  match snd st with
  | Some b => (fst st ++ [b], None)
  | None => st
  end.

Definition merge_step (min_words : Z) (st : merge_state) (seg : Segment)
  : merge_state :=
  match snd st with
  | None => (fst st, Some seg)
  | Some buffer_seg =>
      if word_count buffer_seg <? min_words then
        (fst st, Some (combine_segments buffer_seg seg))
      else (fst (flush_buffer st), Some seg)
  end.

(** The first loop of [enforce_size_constraints] and the flush after it. *)
Definition merge_small (segments : list Segment) (min_words : Z)
  : list Segment :=
  fst (flush_buffer (fold_left (merge_step min_words) segments ([], None))).

Definition split_pass_step (max_words : Z) (final_chunks : list Segment)
    (seg : Segment) : list Segment :=
  if word_count seg >? max_words then
    final_chunks ++ split_large_segment seg max_words
  else final_chunks ++ [seg].

Definition enforce_size_constraints (segments : list Segment)
    (min_words max_words : Z) : list Segment :=
  fold_left (split_pass_step max_words) (merge_small segments min_words) [].

(** ** Vocabulary of the properties *)

(** The words of a segment. *)
Definition words (seg : Segment) : list str := split (text seg).

(** [c] carries the line range and the labels of [seg]. *)
Definition same_provenance (seg c : Segment) : Prop :=
  start_line c = start_line seg /\ end_line c = end_line seg
  /\ chapter c = chapter seg /\ section c = section seg
  /\ heading c = heading seg.

(** [c] is one sentence piece of [seg], emitted alone, with more than
    [max_words] words. *)
Definition oversized_sentence (seg : Segment) (max_words : Z) (c : Segment)
  : Prop :=
  exists sent0,
    In sent0 (sentence_split (text seg))
    /\ text_lines c = [strip sent0]
    /\ max_words < Z.of_nat (length (split (strip sent0)))
    /\ word_count c = Z.of_nat (length (split (strip sent0))).

(** The buffer after a run of segments has been merged into it. *)
Definition merge_run (first : Segment) (rest : list Segment) : Segment :=
  fold_left combine_segments rest first.

(** [m] is the merge of the non-empty run [run]. *)
Definition run_of (run : list Segment) (m : Segment) : Prop :=
  match run with
  | [] => False
  | first :: rest => m = merge_run first rest
  end.

(** A label is present when it is neither [None] nor empty. *)
Definition present (a : option str) : bool :=
  match a with
  | Some (_ :: _) => true
  | _ => false
  end.

(** The first present label of a run, or its last label when none is
    present. *)
Fixpoint first_present (a : option str) (later : list (option str))
  : option str :=
  if present a then a
  else
    match later with
    | [] => a
    | b :: later' => first_present b later'
    end.

(** What the second loop of [enforce_size_constraints] adds for one
    merged segment. *)
Definition split_or_keep (max_words : Z) (seg : Segment) : list Segment :=
  if word_count seg >? max_words then split_large_segment seg max_words
  else [seg].

(** The segments read so far are the closed runs followed by the run in
    the buffer. *)
Definition merge_inv (done : list Segment) (st : merge_state) : Prop :=
  exists runs cur,
    done = concat runs ++ cur
    /\ Forall2 run_of runs (fst st)
    /\ match snd st with
       | None => cur = []
       | Some b => run_of cur b
       end.

(** The test [is_heading] of the loop. *)
Definition is_heading_line (line : str) (cur : option str) : bool :=
  let '(chapter, section, heading) := classify_heading line cur in
  is_some chapter || is_some section || is_some heading.

(** The ranges of [segs] follow one another from line [k + 1] to line
    [n], each one non-empty. *)
Fixpoint contiguous_from (k : Z) (segs : list Segment) (n : Z) : Prop :=
  match segs with
  | [] => k = n
  | seg :: rest =>
      start_line seg = k + 1 /\ start_line seg <= end_line seg
      /\ contiguous_from (end_line seg) rest n
  end.

(** A line of whitespace only. *)
Definition blank (line : str) : Prop := strip line = [].

(** The segment that the scan closes for the lines in [current_lines]. *)
Definition pending_segment (st : scan_state) (last : Z) : Segment :=
  mkSegment (current_start_line st) last (current_chapter st)
    (current_section st) (current_heading st) (current_lines st).

(** A segment that starts at line 1 holds the first lines of the input. *)
Definition holds_prefix (lines : list str) (seg : Segment) : Prop :=
  start_line seg = 1 ->
  text_lines seg = map rstrip_nl (firstn (Z.to_nat (end_line seg)) lines).

(** What the loop of [build_semantic_segments] keeps true after the
    lines [pre] of [lines]. *)
Record scan_inv (lines pre : list str) (st : scan_state) : Prop := {
  inv_idx : pre <> [] -> idx st = Some (Z.of_nat (length pre));
  inv_start : 1 <= current_start_line st;
  inv_contiguous :
    contiguous_from 0 (segments st) (current_start_line st - 1);
  inv_length :
    Z.of_nat (length (current_lines st))
    = Z.of_nat (length pre) - (current_start_line st - 1);
  inv_words :
    Forall (fun seg => start_line seg = 1 \/ 0 < word_count seg)
      (segments st);
  inv_pending_words :
    current_start_line st = 1
    \/ concat (map split (current_lines st)) <> [];
  inv_pending_prefix :
    current_start_line st = 1 -> current_lines st = map rstrip_nl pre;
  inv_prefix : Forall (holds_prefix lines) (segments st)
}.

(** [line] contains the word glossary, in any letter case, with no word
    character next to it on either side. *)
Definition standalone_glossary (line : str) : Prop :=
  exists pre w post,
    line = pre ++ w ++ post
    /\ map lower w = str_of "glossary"
    /\ isword_opt (last_or None pre) = false
    /\ isword_opt (hd_error post) = false.

(** What the merge of the non-empty run [run] into [m] does to the
    labels: each label of [m] is the first present one of the run. *)
Definition run_labels (run : list Segment) (m : Segment) : Prop :=
  exists first rest,
    run = first :: rest
    /\ m = merge_run first rest
    /\ chapter m = first_present (chapter first) (map chapter rest)
    /\ section m = first_present (section first) (map section rest)
    /\ heading m = first_present (heading first) (map heading rest).

(** Every chunk but the first and the last is within the window, or is
    one oversized sentence. *)
Definition window_claim (segs : list Segment) (min_words max_words : Z)
  : Prop :=
  let out := enforce_size_constraints segs min_words max_words in
  forall i c,
    nth_error out i = Some c ->
    (0 < i)%nat -> (S i < length out)%nat ->
    min_words <= word_count c <= max_words
    \/ exists seg, oversized_sentence seg max_words c.

(** ** Sample inputs *)

(** A line of a file: its text and the newline that ends it. *)
Definition file_line (s : string) : str := str_of s ++ ["010"%char].

(** [n] words on one line. *)
Definition many_words (n : nat) : str := concat (repeat (str_of "w ") n).

Definition plain_segment (line_no : Z) (line : str) : Segment :=
  mkSegment line_no line_no None None None [line].

Definition example_lines : list str :=
  [file_line "CHAPTER 1."; file_line "Intro text here.";
   file_line "1.1 Basics"; file_line "More content."].

Definition blank_first_lines : list str :=
  [file_line ""; file_line "CHAPTER 1."; file_line "Intro text here."].

Definition glossary_line : str := file_line "   glossary terms".

Definition short_tail_segments : list Segment :=
  [plain_segment 1 (many_words 150);
   plain_segment 2 (str_of "x. " ++ many_words 700);
   plain_segment 3 (str_of "end")].

Definition two_sentences : Segment :=
  plain_segment 1 (str_of "One two three. Four five.").


(** ** Serialization and the pipeline *)

(** One dictionary of [chunks_to_json_dicts], before any embedding is
    attached. *)
Record json_chunk := mkJson {
  json_id : Z;
  json_chapter : option str;
  json_section : option str;
  json_heading : option str;
  json_start_line : Z;
  json_end_line : Z;
  json_word_count : Z;
  json_text : str
}.

Definition json_of (i : Z) (seg : Segment) : json_chunk :=
  mkJson i (chapter seg) (section seg) (heading seg) (start_line seg)
    (end_line seg) (word_count seg) (text seg).

(** The loop over [enumerate(chunks)]. *)
Fixpoint json_loop (i : Z) (chunks : list Segment)
    (json_chunks : list json_chunk) : list json_chunk :=
  match chunks with
  | [] => json_chunks
  | seg :: rest => json_loop (i + 1) rest (json_chunks ++ [json_of i seg])
  end.

Definition chunks_to_json_dicts (chunks : list Segment) : list json_chunk :=
  json_loop 0 chunks [].

(** The steps of [main] between reading the lines of the input and
    attaching the embeddings. *)
Definition main_chunks (lines : list str) (min_words max_words : Z)
  : result (list json_chunk) :=
  match build_semantic_segments lines with
  | Ok semantic_segments =>
      Ok (chunks_to_json_dicts
            (enforce_size_constraints semantic_segments min_words max_words))
  | UnboundLocalError => UnboundLocalError
  end.

(** The sentence pieces that the loop of [split_large_segment] keeps:
    stripped, the empty ones skipped. *)
Definition sentence_pieces (s : str) : list str :=
  filter truthy (map strip (sentence_split s)).

(** The number of words of a group of sentences. *)
Definition group_words (g : list str) : Z :=
  Z.of_nat (length (concat (map split g))).

(** A group that the loop closes: not empty, and within [max_words]
    unless it is one sentence alone. *)
Definition group_allowed (max_words : Z) (g : list str) : Prop :=
  g <> []
  /\ (group_words g <= max_words
      \/ exists sent,
           g = [sent] /\ max_words < Z.of_nat (length (split sent))).

(** ** Vocabulary of the further properties *)

(** The lines [first] to [last] of [lines], numbered from 1. *)
Definition line_range (lines : list str) (first last : Z) : list str :=
  firstn (Z.to_nat (last - first + 1)) (skipn (Z.to_nat (first - 1)) lines).

(** The lines of [seg] are the lines of its range, without the newlines
    that end them. *)
Definition exact_range (lines : list str) (seg : Segment) : Prop :=
  text_lines seg
  = map rstrip_nl (line_range lines (start_line seg) (end_line seg)).

(** The labels of [seg] are what its first line classifies as, under the
    chapter of [seg]. *)
Definition own_labels (seg : Segment) : Prop :=
  exists l rest,
    text_lines seg = l :: rest
    /\ classify_heading l (chapter seg)
       = (chapter seg, section seg, heading seg).

(** No line of [ls] after the first is a heading. *)
Definition body_after_first (ls : list str) : Prop :=
  Forall (fun l => is_heading_line l None = false) (tl ls).

(** [ls] starts with a heading. *)
Definition starts_with_heading (ls : list str) : Prop :=
  exists l rest, ls = l :: rest /\ is_heading_line l None = true.

(** The number of segments that the scan closes for [lines]: one, and
    one more for each heading after the first line. *)
Definition segment_count (lines : list str) : nat :=
  match lines with
  | [] => 0
  | _ :: rest => S (length (filter (fun l => is_heading_line l None) rest))
  end.

(** The results that [classify_heading] can give under the chapter
    [cur]. *)
Definition heading_shape (cur : option str)
    (r : option str * option str * option str) : Prop :=
  r = (None, None, None)
  \/ r = (Some (str_of "Glossary"), None, Some (str_of "Glossary"))
  \/ (exists digits,
        digits <> [] /\ forallb isdigit digits = true
        /\ r = (Some digits, None, Some (str_of "Chapter " ++ digits)))
  \/ (exists c label title,
        isdigit c = true
        /\ forallb (fun x => isdigit x || is_dot x) label = true
        /\ existsb is_dot label = true
        /\ title <> [] /\ strip title = title
        /\ r = (cur, Some (c :: label), Some title)).

(** What the loop of [build_semantic_segments] keeps true of the text of
    the segments. *)
Record scan_text_inv (lines pre : list str) (st : scan_state) : Prop := {
  t_nonempty : pre <> [] -> truthy (current_lines st) = true;
  t_concat :
    concat (map text_lines (segments st)) ++ current_lines st
    = map rstrip_nl pre;
  t_pending_range :
    current_lines st
    = map rstrip_nl (skipn (Z.to_nat (current_start_line st - 1)) pre);
  t_ranges : Forall (exact_range lines) (segments st)
}.

(** What the loop keeps true of the labels and of the places where the
    segments are cut. *)
Record scan_cut_inv (pre : list str) (st : scan_state) : Prop := {
  c_pending_labels :
    match current_lines st with
    | [] =>
        (current_chapter st, current_section st, current_heading st)
        = (None, None, None)
    | l :: _ =>
        classify_heading l (current_chapter st)
        = (current_chapter st, current_section st, current_heading st)
    end;
  c_labels : Forall own_labels (segments st);
  c_pending_body : body_after_first (current_lines st);
  c_body : Forall (fun seg => body_after_first (text_lines seg)) (segments st);
  c_pending_head :
    current_start_line st = 1 \/ starts_with_heading (current_lines st);
  c_head :
    Forall (fun seg => start_line seg = 1
                       \/ starts_with_heading (text_lines seg))
      (segments st);
  c_count :
    (length (segments st) + (if truthy (current_lines st) then 1 else 0)
     = segment_count pre)%nat
}.

(** Any two neighbours of [l] have more than [max_words] words
    together. *)
Fixpoint adjacent_over (max_words : Z) (l : list Segment) : Prop :=
  match l with
  | a :: (b :: _) as rest =>
      max_words < word_count a + word_count b /\ adjacent_over max_words rest
  | _ => True
  end.

(** The state of the merge loop with its buffer flushed. *)
Definition flushed (st : merge_state) : list Segment := fst (flush_buffer st).

(** ** Further sample inputs *)

Definition three_segments : list Segment :=
  [plain_segment 1 (str_of "one two"); plain_segment 2 (str_of "three");
   plain_segment 3 (str_of "four five six")].


(** * Properties *)

(** ** Whitespace and words *)

Section Strip.

Variable p : ascii -> bool.

Lemma lstrip_by_decompose (s : str) :
  exists ws, s = ws ++ lstrip_by p s /\ forallb p ws = true.
Proof.
  induction s as [|c s IH]; simpl.
  - exists []. auto.
  - destruct (p c) eqn:Hc.
    + destruct IH as [ws [E F]]. exists (c :: ws). simpl.
      rewrite Hc, F. split; [congruence | reflexivity].
    + exists []. auto.
Qed.

Lemma rstrip_by_decompose (s : str) :
  exists ws, s = rstrip_by p s ++ ws /\ forallb p ws = true.
Proof.
  induction s as [|c s IH]; simpl.
  - exists []. auto.
  - destruct IH as [ws [E F]].
    destruct (rstrip_by p s) as [|r0 r] eqn:Hr.
    + destruct (p c) eqn:Hc.
      * exists (c :: ws). simpl in *. rewrite Hc, F. split; [congruence | reflexivity].
      * exists ws. simpl in *. split; congruence.
    + exists ws. split; [|assumption]. simpl in *. congruence.
Qed.

Lemma lstrip_by_app_keep (a b : str) (c : ascii) :
  p c = false -> lstrip_by p (a ++ c :: b) = lstrip_by p a ++ c :: b.
Proof.
  intros Hc. induction a as [|x a IH]; simpl.
  - now rewrite Hc.
  - destruct (p x); [assumption | reflexivity].
Qed.

Lemma rstrip_by_cons_keep (c : ascii) (b : str) :
  p c = false -> rstrip_by p (c :: b) = c :: rstrip_by p b.
Proof.
  intros Hc. simpl. destruct (rstrip_by p b); [now rewrite Hc | reflexivity].
Qed.

Lemma rstrip_by_app_keep (a b : str) (c : ascii) :
  p c = false -> rstrip_by p (a ++ c :: b) = a ++ c :: rstrip_by p b.
Proof.
  intros Hc. induction a as [|x a IH].
  - now apply rstrip_by_cons_keep.
  - simpl. rewrite IH. destruct a; reflexivity.
Qed.

Lemma lstrip_by_all (s : str) : forallb p s = true -> lstrip_by p s = [].
Proof.
  induction s as [|c s IH]; simpl; [reflexivity|].
  destruct (p c); simpl; [assumption | discriminate].
Qed.

Lemma rstrip_by_all (s : str) : forallb p s = true -> rstrip_by p s = [].
Proof.
  induction s as [|c s IH]; simpl; [reflexivity|].
  destruct (p c) eqn:Hc; simpl; [|discriminate].
  intros H. rewrite (IH H). reflexivity.
Qed.

End Strip.

Lemma strip_all_space (s : str) : forallb isspace s = true -> strip s = [].
Proof.
  intros H. unfold strip. now rewrite (rstrip_by_all _ _ H).
Qed.

Lemma split_from_space (cur a b : str) (c : ascii) :
  isspace c = true ->
  split_from cur (a ++ c :: b) = split_from cur a ++ split b.
Proof.
  intros Hc. revert cur. induction a as [|x a IH]; intros cur; simpl.
  - now rewrite Hc.
  - destruct (isspace x).
    + rewrite IH. now rewrite app_assoc.
    + apply IH.
Qed.

Lemma split_all_space (s : str) : forallb isspace s = true -> split s = [].
Proof.
  unfold split. induction s as [|c s IH]; simpl; [reflexivity|].
  destruct (isspace c); simpl; [assumption | discriminate].
Qed.

Lemma split_app_space_l (ws s : str) :
  forallb isspace ws = true -> split (ws ++ s) = split s.
Proof.
  unfold split. induction ws as [|c ws IH]; simpl; [reflexivity|].
  destruct (isspace c); simpl; [assumption | discriminate].
Qed.

Lemma split_from_app_space_r (cur s ws : str) :
  forallb isspace ws = true -> split_from cur (s ++ ws) = split_from cur s.
Proof.
  destruct ws as [|c ws]; simpl.
  - now rewrite app_nil_r.
  - destruct (isspace c) eqn:Hc; simpl; [|discriminate].
    intros H. rewrite (split_from_space _ _ _ _ Hc).
    rewrite (split_all_space _ H). apply app_nil_r.
Qed.

Lemma split_strip (s : str) : split (strip s) = split s.
Proof.
  unfold strip.
  destruct (rstrip_by_decompose isspace s) as [ws [E F]].
  destruct (lstrip_by_decompose isspace (rstrip_by isspace s)) as [wl [El Fl]].
  rewrite E at 2. unfold split. rewrite (split_from_app_space_r _ _ _ F).
  rewrite El at 2. symmetry. apply (split_app_space_l _ _ Fl).
Qed.

Lemma split_from_nonempty (s cur : str) :
  cur <> [] -> split_from cur s <> [].
Proof.
  revert cur. induction s as [|c s IH]; intros cur Hc; simpl.
  - destruct cur; [contradiction | discriminate].
  - destruct (isspace c).
    + destruct cur; [contradiction | discriminate].
    + apply IH. discriminate.
Qed.

Lemma split_nil_all_space (s : str) :
  split s = [] -> forallb isspace s = true.
Proof.
  unfold split. induction s as [|c s IH]; simpl; [reflexivity|].
  destruct (isspace c) eqn:Hc; simpl; [assumption|].
  intros H. exfalso. revert H. apply split_from_nonempty. discriminate.
Qed.

Lemma split_join_space (l : list str) :
  split (join (str_of " ") l) = concat (map split l).
Proof.
  induction l as [|x r IH]; [reflexivity|].
  destruct r as [|y r].
  - simpl. now rewrite app_nil_r.
  - change (join (str_of " ") (x :: y :: r))
      with (x ++ " "%char :: join (str_of " ") (y :: r)).
    unfold split at 1. rewrite split_from_space by reflexivity.
    rewrite IH. reflexivity.
Qed.

Lemma strip_falsy_split (s : str) : truthy (strip s) = false -> split s = [].
Proof.
  intros H. rewrite <- split_strip. destruct (strip s); [reflexivity | discriminate].
Qed.

Lemma split_text_lines (ls : list str) :
  split (join (str_of " ")
           (map strip (filter (fun line => truthy (strip line)) ls)))
  = concat (map split ls).
Proof.
  rewrite split_join_space.
  induction ls as [|l ls IH]; simpl; [reflexivity|].
  destruct (truthy (strip l)) eqn:Ht; simpl.
  - rewrite split_strip, IH. reflexivity.
  - rewrite (strip_falsy_split _ Ht), IH. reflexivity.
Qed.

Lemma words_lines (seg : Segment) :
  words seg = concat (map split (text_lines seg)).
Proof. apply split_text_lines. Qed.

Lemma word_count_words (seg : Segment) :
  word_count seg = Z.of_nat (length (words seg)).
Proof.
  unfold word_count, words. destruct (text seg); reflexivity.
Qed.

Lemma word_count_nonneg (seg : Segment) : 0 <= word_count seg.
Proof. rewrite word_count_words. lia. Qed.

Lemma words_combine (b s : Segment) :
  words (combine_segments b s) = words b ++ words s.
Proof.
  rewrite !words_lines. simpl. now rewrite map_app, concat_app.
Qed.

Lemma word_count_combine (b s : Segment) :
  word_count (combine_segments b s) = word_count b + word_count s.
Proof.
  rewrite !word_count_words, words_combine, length_app. lia.
Qed.

(** ** Sentence splitting *)

Lemma re_split_from_words (s : str) :
  forall prev cur,
    concat (map split (re_split_from false prev cur s)) = split (rev cur ++ s)
    /\ concat (map split (re_split_from true prev [] s)) = split s.
Proof.
  induction s as [|c s IH]; intros prev cur.
  - simpl. rewrite !app_nil_r. auto.
  - simpl re_split_from. destruct (isspace c) eqn:Hc.
    + split.
      * destruct (is_terminator prev).
        -- simpl. rewrite (proj2 (IH (Some c) [])).
           unfold split at 3. now rewrite split_from_space.
        -- rewrite (proj1 (IH (Some c) (c :: cur))). simpl.
           now rewrite <- app_assoc.
      * rewrite (proj2 (IH (Some c) [])). unfold split at 2. simpl.
        now rewrite Hc.
    + split.
      * rewrite (proj1 (IH (Some c) (c :: cur))). simpl.
        now rewrite <- app_assoc.
      * rewrite (proj1 (IH (Some c) [c])). reflexivity.
Qed.

Lemma sentence_split_words (s : str) :
  concat (map split (sentence_split s)) = split s.
Proof. apply (proj1 (re_split_from_words s None [])). Qed.

(** ** Splitting one segment *)

Lemma words_group_segment (seg : Segment) (sents : list str) :
  words (group_segment seg sents) = concat (map split sents).
Proof.
  rewrite words_lines. simpl. rewrite app_nil_r. apply split_join_space.
Qed.

Lemma concat_map_snoc {A B : Type} (f : A -> list B) (l : list A) (x : A) :
  concat (map f (l ++ [x])) = concat (map f l) ++ f x.
Proof. rewrite map_app, concat_app. simpl. now rewrite app_nil_r. Qed.

Lemma split_finish_words (seg : Segment) (st : split_state) :
  concat (map words (split_finish seg st))
  = concat (map words (chunks st)) ++ concat (map split (current_sentences st)).
Proof.
  unfold split_finish. destruct (current_sentences st) as [|x r] eqn:E; simpl truthy; cbv iota.
  - simpl. now rewrite app_nil_r.
  - rewrite concat_map_snoc, words_group_segment. reflexivity.
Qed.

Lemma split_step_words (seg : Segment) (max_words : Z) (st : split_state)
    (sent0 : str) :
  let st' := split_step seg max_words st sent0 in
  concat (map words (chunks st')) ++ concat (map split (current_sentences st'))
  = (concat (map words (chunks st))
     ++ concat (map split (current_sentences st))) ++ split sent0.
Proof.
  unfold split_step. destruct (truthy (strip sent0)) eqn:Ht; simpl negb; cbv iota.
  - destruct (truthy (current_sentences st)
              && (current_wc st + Z.of_nat (length (split (strip sent0)))
                  >? max_words)); simpl.
    + rewrite concat_map_snoc, words_group_segment, split_strip, app_nil_r.
      reflexivity.
    + rewrite concat_map_snoc, split_strip, app_assoc. reflexivity.
  - simpl. rewrite (strip_falsy_split _ Ht), app_nil_r. reflexivity.
Qed.

Lemma split_loop_words (seg : Segment) (max_words : Z) (pieces : list str) :
  forall st,
    concat (map words
              (split_finish seg (fold_left (split_step seg max_words) pieces st)))
    = (concat (map words (chunks st))
       ++ concat (map split (current_sentences st)))
      ++ concat (map split pieces).
Proof.
  induction pieces as [|x pieces IH]; intros st; simpl.
  - rewrite app_nil_r. apply split_finish_words.
  - rewrite IH. rewrite (split_step_words seg max_words st x).
    now rewrite <- app_assoc.
Qed.

Lemma split_large_segment_words (seg : Segment) (max_words : Z) :
  concat (map words (split_large_segment seg max_words)) = words seg.
Proof.
  unfold split_large_segment. destruct (word_count seg <=? max_words).
  - simpl. apply app_nil_r.
  - rewrite split_loop_words. simpl. apply sentence_split_words.
Qed.

Lemma word_count_group_segment (seg : Segment) (sents : list str) :
  word_count (group_segment seg sents)
  = Z.of_nat (length (concat (map split sents))).
Proof. now rewrite word_count_words, words_group_segment. Qed.

Section SplitInvariant.

Variable seg : Segment.
Variable max_words : Z.

(** What the loop of [split_large_segment] keeps true of a group under
    construction and of the groups already closed. *)
Let within (c : Segment) : Prop :=
  word_count c <= max_words \/ oversized_sentence seg max_words c.

Let group_ok (st : split_state) : Prop :=
  current_sentences st = []
  \/ current_wc st <= max_words
  \/ exists sent0,
       In sent0 (sentence_split (text seg))
       /\ current_sentences st = [strip sent0]
       /\ max_words < Z.of_nat (length (split (strip sent0))).

Let split_inv (st : split_state) : Prop :=
  Forall within (chunks st)
  /\ current_wc st
     = Z.of_nat (length (concat (map split (current_sentences st))))
  /\ group_ok st.

Lemma group_within (st : split_state) :
  split_inv st -> current_sentences st <> [] ->
  within (group_segment seg (current_sentences st)).
Proof.
  intros [_ [Hwc Hg]] Hne. unfold within.
  destruct Hg as [E | [Hle | [sent0 [Hin [E Hbig]]]]].
  - contradiction.
  - left. rewrite word_count_group_segment, <- Hwc. exact Hle.
  - right. exists sent0. rewrite word_count_group_segment, E. simpl.
    rewrite app_nil_r. auto.
Qed.

Lemma single_group_ok (chunks0 : list Segment) (sent0 : str) :
  In sent0 (sentence_split (text seg)) ->
  group_ok (mkSplit chunks0 [strip sent0]
              (Z.of_nat (length (split (strip sent0))))).
Proof.
  intros Hin. unfold group_ok. simpl.
  destruct (Z_le_gt_dec (Z.of_nat (length (split (strip sent0)))) max_words).
  - right. left. assumption.
  - right. right. exists sent0. repeat split; [assumption | lia].
Qed.

Lemma split_step_inv (st : split_state) (sent0 : str) :
  In sent0 (sentence_split (text seg)) ->
  split_inv st -> split_inv (split_step seg max_words st sent0).
Proof.
  intros Hin Hinv. pose proof Hinv as [Hch [Hwc Hg]].
  unfold split_step.
  destruct (truthy (strip sent0)) eqn:Ht; simpl negb; cbv iota;
    [|exact Hinv].
  destruct (current_sentences st) as [|x r] eqn:Ecur.
  - (* the first piece of the segment *)
    simpl. split; [exact Hch|]. split.
    + simpl. rewrite app_nil_r. rewrite Hwc. reflexivity.
    + rewrite Hwc. simpl. now apply single_group_ok.
  - simpl truthy. simpl andb.
    destruct (current_wc st + Z.of_nat (length (split (strip sent0)))
              >? max_words) eqn:Hgt.
    + split.
      * simpl. apply Forall_app. split; [exact Hch|].
        constructor; [|constructor]. rewrite <- Ecur.
        apply group_within; [exact Hinv | rewrite Ecur; discriminate].
      * split; [simpl; now rewrite app_nil_r|].
        now apply single_group_ok.
    + split; [exact Hch|]. split.
      * cbn [current_sentences current_wc].
        rewrite concat_map_snoc, length_app, Hwc. lia.
      * right. left. simpl. lia.
Qed.

Lemma split_loop_inv (pieces : list str) :
  forall st,
    incl pieces (sentence_split (text seg)) ->
    split_inv st ->
    split_inv (fold_left (split_step seg max_words) pieces st).
Proof.
  induction pieces as [|x pieces IH]; intros st Hincl Hinv; simpl.
  - exact Hinv.
  - apply IH.
    + intros y Hy. apply Hincl. now right.
    + apply split_step_inv; [apply Hincl; now left | exact Hinv].
Qed.

Lemma split_finish_within (st : split_state) :
  split_inv st -> Forall within (split_finish seg st).
Proof.
  intros Hinv. unfold split_finish.
  destruct (current_sentences st) as [|x r] eqn:E; simpl truthy; cbv iota.
  - apply Hinv.
  - apply Forall_app. split; [apply Hinv|].
    constructor; [|constructor]. rewrite <- E.
    apply group_within; [exact Hinv | rewrite E; discriminate].
Qed.

Lemma split_large_segment_within :
  max_words < word_count seg ->
  Forall (fun c => word_count c <= max_words
                   \/ oversized_sentence seg max_words c)
    (split_large_segment seg max_words).
Proof.
  intros Hbig. unfold split_large_segment.
  destruct (word_count seg <=? max_words) eqn:Hle; [lia|].
  apply split_finish_within. apply split_loop_inv.
  - apply incl_refl.
  - split; [constructor|]. split; [reflexivity | now left].
Qed.

(** Provenance of the groups. *)
Lemma split_loop_provenance (pieces : list str) :
  forall st,
    Forall (same_provenance seg) (chunks st) ->
    Forall (same_provenance seg)
      (split_finish seg (fold_left (split_step seg max_words) pieces st)).
Proof.
  assert (Hgrp : forall l, same_provenance seg (group_segment seg l))
    by (intros l; repeat split).
  induction pieces as [|x pieces IH]; intros st Hst; simpl.
  - unfold split_finish. destruct (truthy (current_sentences st)); auto.
    apply Forall_app. auto.
  - apply IH. unfold split_step.
    destruct (negb (truthy (strip x))); [exact Hst|].
    destruct (truthy (current_sentences st) && _); simpl; [|exact Hst].
    apply Forall_app. auto.
Qed.

End SplitInvariant.

(** ** The merge pass *)

Lemma merge_step_words (min_words : Z) (st : merge_state) (x : Segment) :
  concat (map words (fst (flush_buffer (merge_step min_words st x))))
  = concat (map words (fst (flush_buffer st))) ++ words x.
Proof.
  destruct st as [m [b|]]; unfold merge_step, flush_buffer; simpl.
  - destruct (word_count b <? min_words); simpl.
    + rewrite !concat_map_snoc, words_combine. now rewrite app_assoc.
    + now rewrite !concat_map_snoc.
  - now rewrite concat_map_snoc.
Qed.

Lemma merge_loop_words (min_words : Z) (segs : list Segment) :
  forall st,
    concat (map words
              (fst (flush_buffer (fold_left (merge_step min_words) segs st))))
    = concat (map words (fst (flush_buffer st))) ++ concat (map words segs).
Proof.
  induction segs as [|x segs IH]; intros st; simpl.
  - now rewrite app_nil_r.
  - rewrite IH, merge_step_words. now rewrite <- app_assoc.
Qed.

Lemma merge_small_words (segs : list Segment) (min_words : Z) :
  concat (map words (merge_small segs min_words)) = concat (map words segs).
Proof. unfold merge_small. now rewrite merge_loop_words. Qed.

Lemma merge_loop_min (min_words : Z) (segs : list Segment) :
  forall st,
    Forall (fun m => min_words <= word_count m) (fst st) ->
    Forall (fun m => min_words <= word_count m)
      (fst (fold_left (merge_step min_words) segs st)).
Proof.
  induction segs as [|x segs IH]; intros st Hst; simpl; [exact Hst|].
  apply IH. destruct st as [m [b|]]; unfold merge_step, flush_buffer; simpl.
  - destruct (word_count b <? min_words) eqn:Hlt; simpl; [exact Hst|].
    apply Forall_app. split; [exact Hst|].
    constructor; [lia | constructor].
  - exact Hst.
Qed.

Lemma Forall_removelast {A : Type} (P : A -> Prop) (l : list A) :
  Forall P l -> Forall P (removelast l).
Proof.
  induction 1 as [|x l Hx Hl IH]; simpl; [constructor|].
  destruct l; [constructor | now constructor].
Qed.

Lemma merge_small_min (segs : list Segment) (min_words : Z) :
  Forall (fun m => min_words <= word_count m)
    (removelast (merge_small segs min_words)).
Proof.
  unfold merge_small.
  pose proof (merge_loop_min min_words segs ([], None) (Forall_nil _)) as H.
  destruct (fold_left (merge_step min_words) segs ([], None)) as [m [b|]];
    unfold flush_buffer; simpl in *.
  - now rewrite removelast_last.
  - now apply Forall_removelast.
Qed.

Lemma merge_run_snoc (first : Segment) (rest : list Segment) (x : Segment) :
  merge_run first (rest ++ [x]) = combine_segments (merge_run first rest) x.
Proof. unfold merge_run. now rewrite fold_left_app. Qed.

Lemma merge_step_inv (min_words : Z) (done : list Segment) (st : merge_state)
    (x : Segment) :
  merge_inv done st -> merge_inv (done ++ [x]) (merge_step min_words st x).
Proof.
  intros [runs [cur [Hdone [Hruns Hbuf]]]].
  destruct st as [m [b|]]; unfold merge_step; simpl in *.
  - destruct cur as [|first rest]; [contradiction|].
    destruct (word_count b <? min_words); simpl.
    + exists runs, ((first :: rest) ++ [x]). simpl. repeat split.
      * rewrite Hdone. now rewrite <- app_assoc.
      * exact Hruns.
      * rewrite merge_run_snoc. now rewrite Hbuf.
    + exists (runs ++ [first :: rest]), [x]. simpl. repeat split.
      * rewrite Hdone, concat_app. simpl. now rewrite app_nil_r.
      * apply Forall2_app; [exact Hruns|]. constructor; [exact Hbuf | constructor].
  - subst cur. exists runs, [x]. simpl. repeat split.
    + now rewrite Hdone, app_nil_r.
    + exact Hruns.
Qed.

Lemma merge_loop_inv (min_words : Z) (segs : list Segment) :
  merge_inv segs (fold_left (merge_step min_words) segs ([], None)).
Proof.
  induction segs as [|x segs IH] using rev_ind.
  - exists [], []. simpl. repeat split. constructor.
  - rewrite fold_left_app. simpl. now apply merge_step_inv.
Qed.

Lemma merge_small_runs (segs : list Segment) (min_words : Z) :
  exists runs,
    concat runs = segs /\ Forall2 run_of runs (merge_small segs min_words).
Proof.
  unfold merge_small.
  destruct (merge_loop_inv min_words segs) as [runs [cur [Hdone [Hruns Hbuf]]]].
  destruct (fold_left (merge_step min_words) segs ([], None)) as [m [b|]];
    unfold flush_buffer; simpl in *.
  - exists (runs ++ [cur]). split.
    + rewrite concat_app. simpl. now rewrite app_nil_r.
    + apply Forall2_app; [exact Hruns|]. constructor; [exact Hbuf | constructor].
  - subst cur. exists runs. split; [now rewrite app_nil_r in Hdone | exact Hruns].
Qed.

Lemma py_or_first_present (later : list (option str)) :
  forall a, fold_left py_or later a = first_present a later.
Proof.
  induction later as [|b later IH]; intros a; simpl.
  - destruct a as [[|? ?]|]; reflexivity.
  - rewrite IH. destruct a as [[|c a]|]; simpl; try reflexivity.
    destruct later; reflexivity.
Qed.

Lemma first_present_first (a : option str) (later : list (option str)) :
  present a = true -> first_present a later = a.
Proof. intros H. destruct later; simpl; now rewrite H. Qed.

Lemma merge_run_fields (first : Segment) (rest : list Segment) :
  chapter (merge_run first rest)
  = first_present (chapter first) (map chapter rest)
  /\ section (merge_run first rest)
     = first_present (section first) (map section rest)
  /\ heading (merge_run first rest)
     = first_present (heading first) (map heading rest)
  /\ start_line (merge_run first rest) = start_line first
  /\ text_lines (merge_run first rest)
     = text_lines first ++ concat (map text_lines rest).
Proof.
  rewrite <- !py_or_first_present. unfold merge_run.
  revert first. induction rest as [|x rest IH]; intros first; simpl.
  - rewrite app_nil_r. auto.
  - destruct (IH (combine_segments first x)) as [H1 [H2 [H3 [H4 H5]]]].
    rewrite H1, H2, H3, H4, H5. simpl. rewrite <- app_assoc. auto.
Qed.

(** ** The split pass *)

Lemma split_pass_flat_map (max_words : Z) (merged : list Segment) :
  forall acc,
    fold_left (split_pass_step max_words) merged acc
    = acc ++ flat_map (split_or_keep max_words) merged.
Proof.
  induction merged as [|m merged IH]; intros acc; simpl.
  - now rewrite app_nil_r.
  - rewrite IH. unfold split_pass_step, split_or_keep.
    destruct (word_count m >? max_words); now rewrite <- app_assoc.
Qed.

Lemma enforce_flat_map (segs : list Segment) (min_words max_words : Z) :
  enforce_size_constraints segs min_words max_words
  = flat_map (split_or_keep max_words) (merge_small segs min_words).
Proof. unfold enforce_size_constraints. now rewrite split_pass_flat_map. Qed.

Lemma split_or_keep_words (max_words : Z) (seg : Segment) :
  concat (map words (split_or_keep max_words seg)) = words seg.
Proof.
  unfold split_or_keep. destruct (word_count seg >? max_words).
  - apply split_large_segment_words.
  - simpl. apply app_nil_r.
Qed.

Lemma flat_map_words (max_words : Z) (merged : list Segment) :
  concat (map words (flat_map (split_or_keep max_words) merged))
  = concat (map words merged).
Proof.
  induction merged as [|m merged IH]; simpl; [reflexivity|].
  now rewrite map_app, concat_app, split_or_keep_words, IH.
Qed.

(** ** The segmenter *)

Lemma classify_heading_blank (line : str) (cur : option str) :
  strip line = [] -> classify_heading line cur = (None, None, None).
Proof. intros H. unfold classify_heading. rewrite H. reflexivity. Qed.

Lemma split_rstrip_nl (line : str) : split (rstrip_nl line) = split line.
Proof.
  unfold rstrip_nl.
  destruct (rstrip_by_decompose is_newline line) as [ws [E F]].
  rewrite E at 2. unfold split. symmetry. apply split_from_app_space_r.
  clear E. induction ws as [|c ws IH]; [reflexivity|].
  simpl in *. apply andb_true_iff in F. destruct F as [Hc F].
  rewrite (IH F), andb_true_r. unfold is_newline in Hc.
  apply Ascii.eqb_eq in Hc. now subst c.
Qed.

Lemma split_nil_blank (line : str) : split line = [] <-> blank line.
Proof.
  unfold blank. split; intros H.
  - apply strip_all_space. now apply split_nil_all_space.
  - rewrite <- split_strip, H. reflexivity.
Qed.

Lemma heading_line_words (line : str) (cur : option str) :
  is_heading_line line cur = true -> split (rstrip_nl line) <> [].
Proof.
  intros H Hs. rewrite split_rstrip_nl in Hs. apply split_nil_blank in Hs.
  unfold is_heading_line in H.
  rewrite (classify_heading_blank _ cur Hs) in H. discriminate.
Qed.

(** The part of one iteration that the line ranges depend on. *)
Lemma scan_step_cases (i : Z) (line : str) (st : scan_state) :
  let st' := scan_step i line st in
  idx st' = Some i
  /\ ((is_heading_line line (current_chapter st) = true
       /\ segments st'
          = (if truthy (current_lines st)
             then segments st ++ [pending_segment st (i - 1)]
             else segments st)
       /\ current_lines st' = [rstrip_nl line]
       /\ current_start_line st' = i)
      \/ (is_heading_line line (current_chapter st) = false
          /\ segments st' = segments st
          /\ current_lines st' = current_lines st ++ [rstrip_nl line]
          /\ current_start_line st' = current_start_line st)).
Proof.
  unfold scan_step, is_heading_line.
  destruct (classify_heading line (current_chapter st)) as [[ch sec] hd].
  destruct (is_some ch || is_some sec || is_some hd); simpl.
  - split; [reflexivity|]. left. auto.
  - split; [reflexivity|]. right. auto.
Qed.

Lemma contiguous_from_snoc (segs : list Segment) :
  forall a b seg,
    contiguous_from a segs b ->
    start_line seg = b + 1 -> start_line seg <= end_line seg ->
    contiguous_from a (segs ++ [seg]) (end_line seg).
Proof.
  induction segs as [|x segs IH]; intros a b seg H Hs Hle; simpl in *.
  - subst b. auto.
  - destruct H as [H1 [H2 H3]]. repeat split; try assumption.
    now apply (IH _ b).
Qed.

Lemma contiguous_from_le (segs : list Segment) :
  forall a b, contiguous_from a segs b -> a <= b.
Proof.
  induction segs as [|x segs IH]; intros a b H; simpl in *.
  - lia.
  - destruct H as [H1 [H2 H3]]. apply IH in H3. lia.
Qed.

Lemma contiguous_from_later (segs : list Segment) :
  forall a b,
    contiguous_from a segs b -> 1 <= a ->
    Forall (fun seg => start_line seg <> 1) segs.
Proof.
  induction segs as [|x segs IH]; intros a b H Ha; simpl in *.
  - constructor.
  - destruct H as [H1 [H2 H3]]. constructor; [lia|].
    apply (IH _ _ H3). lia.
Qed.

Lemma word_count_lines (seg : Segment) :
  word_count seg
  = Z.of_nat (length (concat (map split (text_lines seg)))).
Proof. now rewrite word_count_words, words_lines. Qed.

Lemma pending_segment_words (st : scan_state) (last : Z) :
  current_start_line st = 1
  \/ concat (map split (current_lines st)) <> [] ->
  start_line (pending_segment st last) = 1
  \/ 0 < word_count (pending_segment st last).
Proof.
  intros [H | H]; [now left | right].
  rewrite word_count_lines. simpl.
  destruct (concat (map split (current_lines st))); [contradiction|].
  simpl. lia.
Qed.

Lemma truthy_length {A : Type} (l : list A) :
  truthy l = true -> (1 <= length l)%nat.
Proof. destruct l; simpl; [discriminate | lia]. Qed.

Lemma falsy_nil {A : Type} (l : list A) : truthy l = false -> l = [].
Proof. destruct l; simpl; [reflexivity | discriminate]. Qed.

Lemma contiguous_pending (st : scan_state) (last : Z) :
  contiguous_from 0 (segments st) (current_start_line st - 1) ->
  current_start_line st <= last ->
  contiguous_from 0 (segments st ++ [pending_segment st last]) last.
Proof.
  intros Hc Hle.
  apply (contiguous_from_snoc _ _ _ (pending_segment st last) Hc); simpl; lia.
Qed.

Lemma scan_init_inv (lines : list str) : scan_inv lines [] scan_init.
Proof.
  constructor; simpl; try (constructor; fail); try lia; auto.
  intros H. contradiction.
Qed.

Lemma firstn_length_app {A : Type} (pre rest : list A) :
  firstn (length pre) (pre ++ rest) = pre.
Proof.
  rewrite firstn_app, firstn_all, Nat.sub_diag. simpl. apply app_nil_r.
Qed.

Lemma scan_step_inv (lines pre rest : list str) (x : str) (st : scan_state) :
  lines = pre ++ x :: rest ->
  scan_inv lines pre st ->
  scan_inv lines (pre ++ [x]) (scan_step (Z.of_nat (length pre) + 1) x st).
Proof.
  intros Hlines Hinv.
  pose proof (scan_step_cases (Z.of_nat (length pre) + 1) x st) as Hstep.
  cbv zeta in Hstep. destruct Hstep as [Hidx Hstep].
  assert (Hlen : Z.of_nat (length (pre ++ [x])) = Z.of_nat (length pre) + 1)
    by (rewrite length_app; simpl; lia).
  destruct Hinv as [Iidx Istart Icont Ilen Iwords Ipw Ipp Ipre].
  destruct Hstep as [[Hh [Hseg [Hcl Hstart]]] | [Hh [Hseg [Hcl Hstart]]]];
    constructor; rewrite ?Hseg, ?Hcl, ?Hstart, ?Hlen; try assumption.
  - intros _. exact Hidx.
  - lia.
  - destruct (truthy (current_lines st)) eqn:Ht.
    + apply truthy_length in Ht. apply (contiguous_pending _ _ Icont). lia.
    + apply falsy_nil in Ht. rewrite Ht in Ilen. simpl in Ilen.
      replace (Z.of_nat (length pre) + 1 - 1)
        with (current_start_line st - 1) by lia.
      exact Icont.
  - simpl. lia.
  - destruct (truthy (current_lines st)); [|exact Iwords].
    apply Forall_app. split; [exact Iwords|].
    constructor; [|constructor]. now apply pending_segment_words.
  - right. simpl. rewrite app_nil_r.
    apply (heading_line_words _ _ Hh).
  - intros H1. assert (length pre = 0%nat) as H0 by lia.
    destruct pre; [reflexivity | discriminate].
  - destruct (truthy (current_lines st)); [|exact Ipre].
    apply Forall_app. split; [exact Ipre|].
    constructor; [|constructor]. intros H1. simpl in *.
    rewrite (Ipp H1).
    replace (Z.to_nat (Z.of_nat (length pre) + 1 - 1)) with (length pre)
      by lia.
    rewrite Hlines. now rewrite firstn_length_app.
  - intros _. exact Hidx.
  - rewrite length_app. simpl. lia.
  - destruct Ipw as [H | H]; [now left | right].
    rewrite concat_map_snoc. intros E. apply app_eq_nil in E. tauto.
  - intros H1. rewrite (Ipp H1), map_app. reflexivity.
Qed.

Lemma scan_loop_inv (lines rest : list str) :
  forall pre st,
    lines = pre ++ rest ->
    scan_inv lines pre st ->
    scan_inv lines lines (scan_loop (Z.of_nat (length pre) + 1) rest st).
Proof.
  induction rest as [|x rest IH]; intros pre st Hlines Hinv; simpl.
  - rewrite app_nil_r in Hlines. now subst pre.
  - replace (Z.of_nat (length pre) + 1 + 1)
      with (Z.of_nat (length (pre ++ [x])) + 1)
      by (rewrite length_app; simpl; lia).
    apply IH.
    + now rewrite <- app_assoc.
    + now apply (scan_step_inv lines pre rest).
Qed.

(** The segments closed by the scan, before the filter. *)
Lemma closed_segments_spec (lines : list str) :
  exists segs,
    closed_segments lines = Ok segs
    /\ contiguous_from 0 segs (Z.of_nat (length lines))
    /\ Forall (fun seg => start_line seg = 1 \/ 0 < word_count seg) segs
    /\ Forall (holds_prefix lines) segs.
Proof.
  pose proof (scan_loop_inv lines lines [] scan_init eq_refl
                (scan_init_inv lines)) as Hinv.
  simpl in Hinv. unfold closed_segments, close_final.
  set (st := scan_loop 1 lines scan_init) in *.
  destruct Hinv as [Iidx Istart Icont Ilen Iwords Ipw Ipp Ipre].
  destruct (truthy (current_lines st)) eqn:Ht.
  - apply truthy_length in Ht.
    assert (Hne : lines <> []).
    { intros E. rewrite E in Ilen. simpl in Ilen. lia. }
    rewrite (Iidx Hne). eexists. split; [reflexivity|].
    fold (pending_segment st (Z.of_nat (length lines))).
    split; [|split].
    + apply (contiguous_pending _ _ Icont). lia.
    + apply Forall_app. split; [exact Iwords|].
      constructor; [|constructor]. now apply pending_segment_words.
    + apply Forall_app. split; [exact Ipre|].
      constructor; [|constructor]. intros H1. simpl in *.
      rewrite (Ipp H1), Nat2Z.id, firstn_all. reflexivity.
  - apply falsy_nil in Ht. rewrite Ht in Ilen. simpl in Ilen.
    exists (segments st).
    replace (Z.of_nat (length lines)) with (current_start_line st - 1) by lia.
    auto.
Qed.

Lemma In_firstn {A : Type} (l : list A) :
  forall i n x, nth_error l i = Some x -> (i < n)%nat -> In x (firstn n l).
Proof.
  induction l as [|y l IH]; intros i n x Hi Hn.
  - destruct i; discriminate.
  - destruct n; [lia|]. destruct i; simpl in *.
    + left. congruence.
    + right. apply (IH i); [assumption | lia].
Qed.

Lemma filter_keeps_all {A : Type} (f : A -> bool) (l : list A) :
  Forall (fun x => f x = true) l -> filter f l = l.
Proof.
  induction 1 as [|x l Hx Hl IH]; simpl; [reflexivity|].
  now rewrite Hx, IH.
Qed.

Lemma no_words_blank_lines (lines : list str) (seg : Segment) :
  word_count seg = 0 ->
  text_lines seg = map rstrip_nl (firstn (Z.to_nat (end_line seg)) lines) ->
  forall i line,
    nth_error lines i = Some line -> Z.of_nat i < end_line seg -> blank line.
Proof.
  intros Hwc Htl i line Hi Hlt.
  rewrite word_count_lines, Htl in Hwc.
  assert (Hnil : concat (map split (map rstrip_nl
                   (firstn (Z.to_nat (end_line seg)) lines))) = []).
  { destruct (concat _); [reflexivity | simpl in Hwc; lia]. }
  rewrite concat_nil_Forall, map_map, Forall_map, Forall_forall in Hnil.
  apply split_nil_blank. rewrite <- split_rstrip_nl. apply Hnil.
  apply (In_firstn _ i); [assumption | lia].
Qed.

(** The effect of the final filter on the line ranges: at most the first
    segment is dropped, and then its lines are blank. *)
Lemma filter_contiguous (lines : list str) (segs : list Segment) (n : Z) :
  contiguous_from 0 segs n ->
  Forall (fun seg => start_line seg = 1 \/ 0 < word_count seg) segs ->
  Forall (holds_prefix lines) segs ->
  exists k,
    0 <= k <= n
    /\ (forall i line,
          nth_error lines i = Some line -> Z.of_nat i < k -> blank line)
    /\ contiguous_from k (filter (fun seg => 0 <? word_count seg) segs) n.
Proof.
  intros Hc Hw Hp. destruct segs as [|f rest].
  - exists 0. simpl in *. repeat split; try lia.
  - simpl in Hc. destruct Hc as [Hs [Hle Hrest]].
    pose proof (contiguous_from_le _ _ _ Hrest) as Hn.
    assert (Hkeep : filter (fun seg => 0 <? word_count seg) rest = rest).
    { apply filter_keeps_all.
      assert (Hlater := contiguous_from_later _ _ _ Hrest ltac:(lia)).
      inversion Hw as [|? ? _ Hw']; subst.
      rewrite Forall_forall in *. intros seg Hin.
      destruct (Hw' seg Hin) as [H1 | Hpos]; [|lia].
      exfalso. exact (Hlater seg Hin H1). }
    simpl. rewrite Hkeep. destruct (0 <? word_count f) eqn:Hf.
    + exists 0. repeat split; try lia; try assumption.
    + exists (end_line f). repeat split; try lia; try assumption.
      inversion Hp as [|? ? Hpf _]; subst.
      apply no_words_blank_lines.
      * pose proof (word_count_nonneg f). lia.
      * apply Hpf. lia.
Qed.

(** ** The heading classifier *)

Lemma lower_isword (c : ascii) : isword (lower c) = isword c.
Proof. destruct c as [[] [] [] [] [] [] [] []]; reflexivity. Qed.

Lemma lower_isspace (c : ascii) : isspace (lower c) = isspace c.
Proof. destruct c as [[] [] [] [] [] [] [] []]; reflexivity. Qed.

Lemma match_ci_app (pat : str) :
  forall w post,
    map lower w = map lower pat -> match_ci pat (w ++ post) = Some post.
Proof.
  induction pat as [|p pat IH]; intros w post H.
  - destruct w; [reflexivity | discriminate].
  - destruct w as [|c w]; [discriminate|]. simpl in *.
    injection H as Hc Hw. unfold ci_eqb. rewrite Hc, Ascii.eqb_refl.
    now apply IH.
Qed.

Lemma last_or_nonempty (s : str) :
  s <> [] -> forall d d', last_or d s = last_or d' s.
Proof. destruct s; [contradiction | reflexivity]. Qed.

Lemma last_or_app (a b : str) (d : option ascii) :
  last_or d (a ++ b) = last_or (last_or d a) b.
Proof. apply fold_left_app. Qed.

Lemma last_or_In (s : str) :
  s <> [] -> forall d, exists c, last_or d s = Some c /\ In c s.
Proof.
  induction s as [|x s IH]; [contradiction|]. intros _ d. simpl.
  destruct s as [|y s].
  - exists x. simpl. auto.
  - destruct (IH ltac:(discriminate) (Some x)) as [c [Hc Hin]].
    exists c. split; [exact Hc | now right].
Qed.

Section Glossary.

Variable w : str.
Hypothesis Hw : map lower w = str_of "glossary".

Lemma glossary_word_length : length w = 8%nat.
Proof. rewrite <- (length_map lower), Hw. reflexivity. Qed.

Lemma glossary_word_chars :
  forall c, In c w -> isword c = true /\ isspace c = false.
Proof.
  intros c Hin. rewrite <- lower_isword, <- lower_isspace.
  apply (in_map lower) in Hin. rewrite Hw in Hin.
  simpl in Hin.
  repeat (destruct Hin as [Hin | Hin]; [rewrite <- Hin; split; reflexivity|]).
  contradiction.
Qed.

Lemma glossary_word_nonempty : w <> [].
Proof. intros E. rewrite E in Hw. discriminate. Qed.

Lemma glossary_word_head :
  exists c1 w', w = c1 :: w' /\ isword c1 = true /\ isspace c1 = false.
Proof.
  pose proof glossary_word_chars as Hc.
  pose proof glossary_word_nonempty as Hne.
  revert Hc Hne. generalize w. intros [|c1 w'] Hc Hne; [contradiction|].
  exists c1, w'. split; [reflexivity|]. apply Hc. now left.
Qed.

Lemma glossary_at_here (prev : option ascii) (post : str) :
  isword_opt prev = false ->
  isword_opt (hd_error post) = false ->
  glossary_at prev (w ++ post) = true.
Proof.
  intros Hprev Hpost. unfold glossary_at.
  rewrite (match_ci_app (str_of "GLOSSARY") w post) by (now rewrite Hw).
  replace (length (str_of "GLOSSARY")) with (length w)
    by apply glossary_word_length.
  rewrite firstn_length_app.
  destruct (last_or_In w glossary_word_nonempty prev) as [c [Hc Hin]].
  rewrite Hc. unfold word_boundary. rewrite Hprev, Hpost. simpl.
  rewrite (proj1 (glossary_word_chars c Hin)).
  destruct glossary_word_head as [c1 [w' [E [H1 _]]]].
  rewrite E. simpl. rewrite H1. reflexivity.
Qed.

Lemma glossary_from_found (post : str) (pre : str) :
  isword_opt (hd_error post) = false ->
  forall prev,
    isword_opt (last_or prev pre) = false ->
    glossary_from prev (pre ++ w ++ post) = true.
Proof.
  intros Hpost. induction pre as [|c pre IH]; intros prev Hprev.
  - simpl app.
    assert (H := glossary_at_here prev post Hprev Hpost).
    destruct (w ++ post); simpl; rewrite H; reflexivity.
  - simpl. rewrite (IH (Some c) Hprev). apply orb_true_r.
Qed.

Lemma strip_around (pre post : str) :
  strip (pre ++ w ++ post)
  = lstrip_by isspace pre ++ w ++ rstrip_by isspace post.
Proof.
  unfold strip.
  destruct (exists_last glossary_word_nonempty) as [w0 [c8 E]].
  assert (H8 : isspace c8 = false).
  { apply glossary_word_chars. rewrite E. apply in_or_app. right. now left. }
  replace (pre ++ w ++ post) with ((pre ++ w0) ++ c8 :: post)
    by (rewrite E, <- !app_assoc; reflexivity).
  rewrite (rstrip_by_app_keep _ _ _ _ H8).
  replace ((pre ++ w0) ++ c8 :: rstrip_by isspace post)
    with (pre ++ w ++ rstrip_by isspace post)
    by (rewrite E, <- !app_assoc; reflexivity).
  destruct glossary_word_head as [c1 [w' [E1 [_ H1]]]].
  rewrite E1. simpl app. now apply lstrip_by_app_keep.
Qed.

End Glossary.

Lemma last_or_lstrip (pre : str) :
  isword_opt (last_or None pre) = false ->
  isword_opt (last_or None (lstrip_by isspace pre)) = false.
Proof.
  intros H. destruct (lstrip_by_decompose isspace pre) as [ws [E _]].
  destruct (lstrip_by isspace pre) as [|c l] eqn:El; [reflexivity|].
  rewrite E, last_or_app in H.
  now rewrite (last_or_nonempty (c :: l) ltac:(discriminate) None
                 (last_or None ws)).
Qed.

Lemma hd_rstrip (post : str) :
  isword_opt (hd_error post) = false ->
  isword_opt (hd_error (rstrip_by isspace post)) = false.
Proof.
  intros H. destruct (rstrip_by_decompose isspace post) as [ws [E _]].
  destruct (rstrip_by isspace post) as [|c l] eqn:El; [reflexivity|].
  rewrite E in H. exact H.
Qed.

Lemma standalone_glossary_search (line : str) :
  standalone_glossary line -> GLOSSARY_RE_search (strip line) = true.
Proof.
  intros [pre [w [post [E [Hw [Hpre Hpost]]]]]]. subst line.
  rewrite (strip_around w Hw). unfold GLOSSARY_RE_search.
  apply (glossary_from_found w Hw).
  - now apply hd_rstrip.
  - now apply last_or_lstrip.
Qed.

Lemma contiguous_from_covers (segs : list Segment) :
  forall k n,
    contiguous_from k segs n ->
    forall i,
      k < i <= n
      <-> exists seg, In seg segs /\ start_line seg <= i <= end_line seg.
Proof.
  induction segs as [|x segs IH]; intros k n H i; simpl in *.
  - split; [lia | intros [seg [[] _]]].
  - destruct H as [Hs [Hle Hrest]].
    pose proof (contiguous_from_le _ _ _ Hrest) as Hn.
    specialize (IH _ _ Hrest i). split.
    + intros Hi. destruct (Z_le_gt_dec i (end_line x)).
      * exists x. split; [now left | lia].
      * destruct (proj1 IH ltac:(lia)) as [seg [Hin Hr]].
        exists seg. split; [now right | exact Hr].
    + intros [seg [[E | Hin] Hr]].
      * subst seg. lia.
      * assert (end_line x < i <= n) by (apply IH; eauto). lia.
Qed.

(** ** The model on small inputs *)

Example split_runs :
  split (str_of "  Hello  there. How ")
  = [str_of "Hello"; str_of "there."; str_of "How"].
Proof. reflexivity. Qed.

Example sentence_split_pieces :
  sentence_split (str_of "Hi there.  How? Fine!  a.b c")
  = [str_of "Hi there."; str_of "How?"; str_of "Fine!"; str_of "a.b c"].
Proof. reflexivity. Qed.

Example sentence_split_trailing :
  sentence_split (str_of "Done. ") = [str_of "Done."; []].
Proof. reflexivity. Qed.

Example classify_chapter :
  classify_heading (file_line "  chapter  12. Cells") None
  = (Some (str_of "12"), None, Some (str_of "Chapter 12")).
Proof. reflexivity. Qed.

Example classify_section :
  classify_heading (file_line "1.2.3   Tissues and organs") (Some (str_of "1"))
  = (Some (str_of "1"), Some (str_of "1.2.3"),
     Some (str_of "Tissues and organs")).
Proof. reflexivity. Qed.

Example classify_body :
  classify_heading (file_line "12. Not a section") (Some (str_of "1"))
  = (None, None, None).
Proof. reflexivity. Qed.

Example classify_glossary_in_chapter_line :
  classify_heading (file_line "CHAPTER 9. Glossary") None
  = (Some (str_of "Glossary"), None, Some (str_of "Glossary")).
Proof. reflexivity. Qed.

Example classify_glossary_in_section_line :
  classify_heading (file_line "9.1 The GLOSSARY, again") (Some (str_of "9"))
  = (Some (str_of "Glossary"), None, Some (str_of "Glossary")).
Proof. reflexivity. Qed.

Example classify_not_standalone :
  classify_heading (file_line "see glossary_terms and glossaries") None
  = (None, None, None).
Proof. reflexivity. Qed.

Example split_two_sentences :
  map text (split_large_segment two_sentences 3)
  = [str_of "One two three."; str_of "Four five."].
Proof. reflexivity. Qed.

(** * The claims *)

(** C1, as stated, fails: a blank first line followed by a heading is in
    a segment that the final filter drops, so line 1 is in no returned
    range. *)
Lemma blank_first_line_uncovered :
  exists segs,
    build_semantic_segments blank_first_lines = Ok segs
    /\ ~ exists seg, In seg segs /\ start_line seg <= 1 <= end_line seg.
Proof.
  eexists. split; [vm_compute; reflexivity|].
  intros [seg [[E | []] [H1 H2]]]. subst seg. simpl in H1. lia.
Qed.

Lemma build_semantic_segments_ranges (lines : list str) :
  let n := Z.of_nat (length lines) in
  exists closed segs k,
    closed_segments lines = Ok closed
    /\ contiguous_from 0 closed n
    /\ build_semantic_segments lines = Ok segs
    /\ segs = filter (fun seg => 0 <? word_count seg) closed
    /\ 0 <= k <= n
    /\ (forall i line,
          nth_error lines i = Some line -> Z.of_nat i < k -> blank line)
    /\ contiguous_from k segs n
    /\ (forall i,
          k < i <= n
          <-> exists seg,
                In seg segs /\ start_line seg <= i <= end_line seg).
Proof.
  intros n.
  destruct (closed_segments_spec lines) as [closed [Hc [Hcont [Hw Hp]]]].
  destruct (filter_contiguous lines closed n Hcont Hw Hp)
    as [k [Hk [Hblank Hsegs]]].
  exists closed, (filter (fun seg => 0 <? word_count seg) closed), k.
  unfold build_semantic_segments. rewrite Hc.
  repeat split; try assumption; try lia;
    now apply (contiguous_from_covers _ _ _ Hsegs).
Qed.

(** When the first line is not blank nothing is dropped, and the ranges
    of the returned segments cover every line. *)
Lemma build_semantic_segments_cover_all (first : str) (rest : list str) :
  ~ blank first ->
  exists segs,
    build_semantic_segments (first :: rest) = Ok segs
    /\ contiguous_from 0 segs (Z.of_nat (length (first :: rest))).
Proof.
  intros Hfirst.
  destruct (build_semantic_segments_ranges (first :: rest))
    as [closed [segs [k [_ [_ [Hb [_ [Hk [Hblank [Hsegs _]]]]]]]]]].
  exists segs. split; [exact Hb|].
  destruct (Z.eq_dec k 0) as [E | E]; [now rewrite E in Hsegs|].
  exfalso. apply Hfirst. apply (Hblank 0%nat first eq_refl). lia.
Qed.

(** C1 (amended): for an input of N lines the segments closed by the scan
    have contiguous, non-overlapping ranges that cover exactly 1..N; the
    returned segments are those with a positive word count, and their
    ranges are contiguous and non-overlapping and cover exactly k+1..N,
    where the first k lines are blank lines of a dropped leading
    segment. *)
Theorem segments_cover_after_blank_prefix (lines : list str) :
  let n := Z.of_nat (length lines) in
  exists closed segs k,
    closed_segments lines = Ok closed
    /\ contiguous_from 0 closed n
    /\ build_semantic_segments lines = Ok segs
    /\ segs = filter (fun seg => 0 <? word_count seg) closed
    /\ 0 <= k <= n
    /\ (forall i line,
          nth_error lines i = Some line -> Z.of_nat i < k -> blank line)
    /\ contiguous_from k segs n
    /\ (forall i,
          k < i <= n
          <-> exists seg,
                In seg segs /\ start_line seg <= i <= end_line seg).
Proof. apply build_semantic_segments_ranges. Qed.

(** C2: the words of the chunks that [enforce_size_constraints] returns,
    taken in order, are the words of the input segments, taken in
    order. *)
Theorem enforce_size_constraints_words (segs : list Segment)
    (min_words max_words : Z) :
  concat (map words (enforce_size_constraints segs min_words max_words))
  = concat (map words segs).
Proof.
  rewrite enforce_flat_map, flat_map_words. apply merge_small_words.
Qed.

(** C3, as stated, fails: a merged segment of 701 words whose first
    sentence has one word is split into a chunk of 1 word and a chunk of
    700 words; the chunk of 1 word is neither first nor last, is below
    150 words and is no oversized sentence. *)
Lemma short_chunk_inside_window_claim :
  ~ window_claim short_tail_segments 150 700.
Proof.
  intros H.
  assert (E : exists c,
             nth_error (enforce_size_constraints short_tail_segments 150 700) 1
             = Some c
             /\ word_count c = 1
             /\ length (enforce_size_constraints short_tail_segments 150 700)
                = 4%nat).
  { eexists. split; [vm_compute; reflexivity|]. split; vm_compute; reflexivity. }
  destruct E as [c [Hc [Hwc Hlen]]].
  destruct (H 1%nat c Hc ltac:(lia) ltac:(lia))
    as [Hwin | [seg [sent0 [_ [_ [Hbig Heq]]]]]]; lia.
Qed.

Lemma window_general (segs : list Segment) (min_words max_words : Z) :
  let merged := merge_small segs min_words in
  enforce_size_constraints segs min_words max_words
  = flat_map (split_or_keep max_words) merged
  /\ Forall (fun m => min_words <= word_count m) (removelast merged)
  /\ Forall
       (fun m =>
          Forall (fun c => word_count c <= max_words
                           \/ oversized_sentence m max_words c)
            (split_or_keep max_words m))
       merged.
Proof.
  intros merged. split; [apply enforce_flat_map|].
  split; [apply merge_small_min|].
  apply Forall_forall. intros m _. unfold split_or_keep.
  destruct (word_count m >? max_words) eqn:Hgt.
  - apply split_large_segment_within. lia.
  - constructor; [left; lia | constructor].
Qed.

(** C3 (amended): with min_words = 150 and max_words = 700 the output
    is, in order, each segment of the merge pass, kept when it has at most
    700 words and replaced by its pieces otherwise; every merged segment
    but the last has at least 150 words; every chunk has at most 700
    words or is one oversized sentence.  A piece of a split segment may
    have fewer than 150 words. *)
Theorem window_after_merge_and_split (segs : list Segment) :
  let merged := merge_small segs 150 in
  enforce_size_constraints segs 150 700
  = flat_map (split_or_keep 700) merged
  /\ Forall (fun m => 150 <= word_count m) (removelast merged)
  /\ Forall
       (fun m =>
          Forall (fun c => word_count c <= 700
                           \/ oversized_sentence m 700 c)
            (split_or_keep 700 m))
       merged.
Proof. apply window_general. Qed.

Lemma merge_loop_prefix (min_words : Z) (segs : list Segment) :
  forall m buf,
    flushed (fold_left (merge_step min_words) segs (m, buf))
    = m ++ flushed (fold_left (merge_step min_words) segs ([], buf)).
Proof.
  induction segs as [|x segs IH]; intros m buf.
  - destruct buf; unfold flushed, flush_buffer; simpl; [reflexivity|].
    now rewrite app_nil_r.
  - simpl. destruct buf as [b|]; unfold merge_step; simpl.
    + destruct (word_count b <? min_words); simpl.
      * apply IH.
      * rewrite (IH (m ++ [b])), (IH [b]). now rewrite <- app_assoc.
    + apply IH.
Qed.

(** The merge pass on a list of two segments or more: the first segment
    is the buffer when the second comes in. *)
Lemma merge_small_unfold (b s : Segment) (rest : list Segment)
    (min_words : Z) :
  merge_small (b :: s :: rest) min_words
  = if word_count b <? min_words
    then merge_small (combine_segments b s :: rest) min_words
    else b :: merge_small (s :: rest) min_words.
Proof.
  unfold merge_small. change (fun st => fst (flush_buffer st)) with flushed.
  simpl fold_left. unfold merge_step at 2 4 6. simpl.
  change (fst (flush_buffer ?x)) with (flushed x).
  destruct (word_count b <? min_words); simpl; [reflexivity|].
  fold (flushed (fold_left (merge_step min_words) rest ([b], Some s))).
  fold (flushed (fold_left (merge_step min_words) rest ([], Some s))).
  now rewrite (merge_loop_prefix min_words rest [b]).
Qed.

(** C4: the merge decision reads the word count of the buffer and
    nothing else.  Below [min_words] the incoming segment is combined
    into the buffer, whatever its own word count: the lines of the buffer
    followed by its lines, from the start of the buffer to its end.  At
    or above [min_words] the buffer is emitted as it is and the incoming
    segment becomes the buffer, whatever the combined count would be.
    This is the step of the loop, and so it is of the merge pass and of
    [enforce_size_constraints] on any list.  Segments of 10, 10 and 200
    words merge into one segment of 220 words under min_words = 150,
    which [enforce_size_constraints] returns when max_words is at least
    220. *)
Theorem merge_below_min (merged : list Segment) (b s : Segment)
    (rest : list Segment) (min_words max_words : Z) (s1 s2 s3 : Segment) :
  word_count s1 = 10 -> word_count s2 = 10 -> word_count s3 = 200 ->
  let combined :=
    mkSegment (start_line b) (end_line s)
      (py_or (chapter b) (chapter s))
      (py_or (section b) (section s))
      (py_or (heading b) (heading s))
      (text_lines b ++ text_lines s) in
  merge_step min_words (merged, Some b) s
  = (if word_count b <? min_words then (merged, Some combined)
     else (merged ++ [b], Some s))
  /\ merge_small (b :: s :: rest) min_words
     = (if word_count b <? min_words
        then merge_small (combined :: rest) min_words
        else b :: merge_small (s :: rest) min_words)
  /\ enforce_size_constraints (b :: s :: rest) min_words max_words
     = (if word_count b <? min_words
        then enforce_size_constraints (combined :: rest) min_words max_words
        else split_or_keep max_words b
             ++ enforce_size_constraints (s :: rest) min_words max_words)
  /\ exists m,
       merge_small [s1; s2; s3] 150 = [m]
       /\ word_count m = 220
       /\ text_lines m = text_lines s1 ++ text_lines s2 ++ text_lines s3
       /\ start_line m = start_line s1
       /\ end_line m = end_line s3
       /\ (220 <= max_words ->
           enforce_size_constraints [s1; s2; s3] 150 max_words = [m]).
Proof.
  intros H1 H2 H3 combined.
  change combined with (combine_segments b s).
  split; [|split; [|split]].
  - unfold merge_step, flush_buffer. simpl.
    destruct (word_count b <? min_words); reflexivity.
  - apply merge_small_unfold.
  - rewrite !enforce_flat_map, merge_small_unfold.
    destruct (word_count b <? min_words); reflexivity.
  - exists (combine_segments (combine_segments s1 s2) s3).
    assert (Hm : merge_small [s1; s2; s3] 150
                 = [combine_segments (combine_segments s1 s2) s3]).
    { rewrite merge_small_unfold.
      destruct (word_count s1 <? 150) eqn:E1; [|lia].
      rewrite merge_small_unfold, word_count_combine.
      destruct (word_count s1 + word_count s2 <? 150) eqn:E2; [|lia].
      reflexivity. }
    assert (Hwc : word_count (combine_segments (combine_segments s1 s2) s3)
                  = 220) by (rewrite !word_count_combine; lia).
    split; [exact Hm|]. split; [exact Hwc|].
    split; [simpl; now rewrite <- app_assoc|]. split; [reflexivity|].
    split; [reflexivity|].
    intros Hmax. rewrite enforce_flat_map, Hm. simpl.
    unfold split_or_keep. rewrite Hwc.
    destruct (220 >? max_words) eqn:E; [lia | reflexivity].
Qed.

Lemma merge_below_min_witness :
  let s1 := plain_segment 1 (many_words 10) in
  let s2 := plain_segment 2 (many_words 10) in
  let s3 := plain_segment 3 (many_words 200) in
  (word_count s1 = 10 /\ word_count s2 = 10 /\ word_count s3 = 200)
  /\ merge_step 150 ([], Some s1) s2
     = ([], Some (mkSegment 1 2 None None None
                   [many_words 10; many_words 10]))
  /\ merge_step 5 ([], Some s1) s3 = ([s1], Some s3)
  /\ exists m,
       enforce_size_constraints [s1; s2; s3] 150 700 = [m]
       /\ word_count m = 220
       /\ text_lines m = text_lines s1 ++ text_lines s2 ++ text_lines s3
       /\ start_line m = start_line s1
       /\ end_line m = end_line s3.
Proof.
  intros s1 s2 s3.
  assert (H1 : word_count s1 = 10) by (vm_compute; reflexivity).
  assert (H2 : word_count s2 = 10) by (vm_compute; reflexivity).
  assert (H3 : word_count s3 = 200) by (vm_compute; reflexivity).
  split; [auto|]. split; [|split].
  - exact (proj1 (merge_below_min [] s1 s2 [] 150 700 s1 s2 s3 H1 H2 H3)).
  - exact (proj1 (merge_below_min [] s1 s3 [] 5 700 s1 s2 s3 H1 H2 H3)).
  - destruct (merge_below_min [] s1 s2 [] 150 700 s1 s2 s3 H1 H2 H3)
      as [_ [_ [_ [m [_ [Hwc [Hl [Hs [He Hout]]]]]]]]].
    exists m. repeat split; try assumption. apply Hout. lia.
Defined.

(** C5, as stated, fails: on the segments of the sample input the merged
    chunk takes its section from the second segment, the first one having
    none. *)
Lemma merged_section_from_later :
  exists first second m,
    build_semantic_segments example_lines = Ok [first; second]
    /\ merge_small [first; second] 150 = [m]
    /\ run_of [first; second] m
    /\ section first = None
    /\ section m = Some (str_of "1.1").
Proof.
  do 3 eexists. split; [vm_compute; reflexivity|].
  split; [vm_compute; reflexivity|]. repeat split.
Qed.

Lemma run_of_labels (run : list Segment) (m : Segment) :
  run_of run m -> run_labels run m.
Proof.
  destruct run as [|first rest]; [contradiction|]. simpl. intros E.
  exists first, rest. subst m.
  destruct (merge_run_fields first rest) as [H1 [H2 [H3 _]]]. auto.
Qed.

(** C5 (amended): the merge pass cuts its input into consecutive
    non-empty runs, one per output segment; each of chapter, section and
    heading of the output is the first present (neither None nor empty)
    label of the run, in order, so the label of the first segment only
    when that one is present, and the label of the last segment when none
    is present. *)
Theorem merged_labels_first_present (segs : list Segment) (min_words : Z) :
  exists runs,
    concat runs = segs
    /\ Forall2 run_labels runs (merge_small segs min_words).
Proof.
  destruct (merge_small_runs segs min_words) as [runs [Hc Hr]].
  exists runs. split; [exact Hc|]. clear Hc.
  induction Hr as [|run m runs ms Hrun _ IH]; constructor.
  - now apply run_of_labels.
  - exact IH.
Qed.

(** C6: a line that contains the word glossary, in any letter case,
    with no word character next to it, classifies as the Glossary heading
    whatever else the line holds and whatever the current chapter is. *)
Theorem glossary_overrides (line : str) (current_chapter : option str) :
  standalone_glossary line ->
  classify_heading line current_chapter
  = (Some (str_of "Glossary"), None, Some (str_of "Glossary")).
Proof.
  intros H. unfold classify_heading.
  now rewrite (standalone_glossary_search line H).
Qed.

Lemma glossary_overrides_witness :
  standalone_glossary glossary_line
  /\ classify_heading glossary_line (Some (str_of "7"))
     = (Some (str_of "Glossary"), None, Some (str_of "Glossary")).
Proof.
  assert (H : standalone_glossary glossary_line).
  { exists (str_of "   "), (str_of "glossary"), (file_line " terms").
    repeat split. }
  split; [exact H | exact (glossary_overrides _ _ H)].
Defined.

Lemma group_words_single (sent : str) :
  group_words [sent] = Z.of_nat (length (split sent)).
Proof. unfold group_words. simpl. now rewrite app_nil_r. Qed.

Lemma group_words_snoc (g : list str) (sent : str) :
  group_words (g ++ [sent]) = group_words g + Z.of_nat (length (split sent)).
Proof. unfold group_words. rewrite concat_map_snoc, length_app. lia. Qed.

Lemma group_words_In (g : list str) (sent : str) :
  In sent g -> Z.of_nat (length (split sent)) <= group_words g.
Proof.
  unfold group_words. induction g as [|x g IH]; intros Hin; [contradiction|].
  simpl. rewrite length_app. destruct Hin as [-> | Hin]; [lia|].
  specialize (IH Hin). lia.
Qed.

Lemma single_group_allowed (max_words : Z) (sent : str) :
  group_allowed max_words [sent].
Proof.
  split; [discriminate|].
  destruct (Z_le_gt_dec (Z.of_nat (length (split sent))) max_words).
  - left. now rewrite group_words_single.
  - right. exists sent. split; [reflexivity | lia].
Qed.

(** The groups that the loop of [split_large_segment] closes. *)
Lemma split_loop_groups (seg : Segment) (max_words : Z) (pieces : list str) :
  forall st gs,
    chunks st = map (group_segment seg) gs ->
    Forall (group_allowed max_words) gs ->
    current_sentences st = []
    \/ group_allowed max_words (current_sentences st) ->
    current_wc st = group_words (current_sentences st) ->
    exists gs',
      split_finish seg (fold_left (split_step seg max_words) pieces st)
      = map (group_segment seg) gs'
      /\ concat gs'
         = concat gs ++ current_sentences st
           ++ filter truthy (map strip pieces)
      /\ Forall (group_allowed max_words) gs'.
Proof.
  induction pieces as [|x pieces IH]; intros st gs Hch Hgs Hcur Hwc.
  - simpl. unfold split_finish.
    destruct (current_sentences st) as [|c0 cs] eqn:E; simpl truthy;
      cbv iota.
    + exists gs. simpl. rewrite app_nil_r. auto.
    + exists (gs ++ [c0 :: cs]). rewrite map_app, concat_app, Hch. simpl.
      rewrite !app_nil_r. repeat split.
      apply Forall_app. split; [exact Hgs|]. constructor; [|constructor].
      destruct Hcur as [Hcur | Hcur]; [discriminate | exact Hcur].
  - simpl fold_left. simpl map. simpl filter. unfold split_step.
    destruct (truthy (strip x)) eqn:Hx; simpl negb; cbv iota;
      [|now apply IH].
    destruct (current_sentences st) as [|c0 cs] eqn:E.
    + (* the first piece *)
      simpl truthy. simpl andb. cbv iota.
      destruct (IH (mkSplit (chunks st) ([] ++ [strip x])
                      (current_wc st + Z.of_nat (length (split (strip x)))))
                  gs Hch Hgs) as [gs' [H1 [H2 H3]]].
      * right. apply single_group_allowed.
      * simpl. rewrite group_words_single, Hwc. reflexivity.
      * exists gs'. simpl in H2. auto.
    + simpl truthy. simpl andb.
      destruct (current_wc st + Z.of_nat (length (split (strip x)))
                >? max_words) eqn:Hgt.
      * destruct (IH (mkSplit (chunks st ++ [group_segment seg (c0 :: cs)])
                        [strip x] (Z.of_nat (length (split (strip x)))))
                    (gs ++ [c0 :: cs])) as [gs' [H1 [H2 H3]]].
        -- simpl. now rewrite map_app, Hch.
        -- apply Forall_app. split; [exact Hgs|]. constructor; [|constructor].
           destruct Hcur as [Hcur | Hcur]; [discriminate | exact Hcur].
        -- right. apply single_group_allowed.
        -- simpl. now rewrite group_words_single.
        -- exists gs'. split; [exact H1|]. split; [|exact H3].
           rewrite H2, concat_app. simpl. rewrite app_nil_r, <- !app_assoc.
           reflexivity.
      * destruct (IH (mkSplit (chunks st) ((c0 :: cs) ++ [strip x])
                        (current_wc st
                         + Z.of_nat (length (split (strip x)))))
                    gs Hch Hgs) as [gs' [H1 [H2 H3]]].
        -- right. split; [discriminate|]. left.
           cbn [current_sentences]. rewrite group_words_snoc, <- Hwc. lia.
        -- cbn [current_sentences current_wc].
           rewrite group_words_snoc, Hwc. reflexivity.
        -- exists gs'. split; [exact H1|]. split; [|exact H3].
           rewrite H2. cbn [current_sentences]. rewrite <- !app_assoc.
           reflexivity.
Qed.

Lemma split_large_segment_groups (seg : Segment) (max_words : Z) :
  max_words < word_count seg ->
  exists groups,
    concat groups = sentence_pieces (text seg)
    /\ Forall (group_allowed max_words) groups
    /\ split_large_segment seg max_words = map (group_segment seg) groups.
Proof.
  intros Hbig. unfold split_large_segment.
  destruct (word_count seg <=? max_words) eqn:E; [lia|].
  destruct (split_loop_groups seg max_words (sentence_split (text seg))
              (mkSplit [] [] 0) [] eq_refl (Forall_nil _)
              (or_introl eq_refl) eq_refl) as [gs [H1 [H2 H3]]].
  exists gs. simpl in H2. auto.
Qed.

(** C7: a segment of at most [max_words] words is returned alone and
    unchanged.  Otherwise the result is made of the sentence pieces of
    the text, every one of them, once and in order, cut into consecutive
    non-empty groups, one segment per group holding the pieces of the
    group joined by single spaces; a group has at most [max_words] words
    unless it is one piece alone.  So every segment of the result has at
    most [max_words] words, except one made of a single sentence piece of
    more than [max_words] words; and every such piece is in the result,
    alone and as it is. *)
Theorem split_large_segment_bound (seg : Segment) (max_words : Z) :
  (word_count seg <= max_words -> split_large_segment seg max_words = [seg])
  /\ (max_words < word_count seg ->
      Forall (fun c => word_count c <= max_words
                       \/ oversized_sentence seg max_words c)
        (split_large_segment seg max_words)
      /\ (exists groups,
            concat groups = sentence_pieces (text seg)
            /\ Forall (group_allowed max_words) groups
            /\ split_large_segment seg max_words
               = map (group_segment seg) groups)
      /\ (forall sent,
            In sent (sentence_pieces (text seg)) ->
            max_words < Z.of_nat (length (split sent)) ->
            In (mkSegment (start_line seg) (end_line seg) (chapter seg)
                  (section seg) (heading seg) [sent])
              (split_large_segment seg max_words))).
Proof.
  split.
  - intros H. unfold split_large_segment.
    destruct (word_count seg <=? max_words) eqn:E; [reflexivity | lia].
  - intros Hbig. split; [now apply split_large_segment_within|].
    destruct (split_large_segment_groups seg max_words Hbig)
      as [groups [Hcat [Hall Hres]]].
    split; [exists groups; auto|].
    intros sent Hin Hover. rewrite <- Hcat in Hin.
    apply in_concat in Hin. destruct Hin as [g [Hg Hsent]].
    rewrite Forall_forall in Hall.
    destruct (Hall g Hg) as [_ [Hle | [sent' [-> _]]]].
    + pose proof (group_words_In g sent Hsent). lia.
    + destruct Hsent as [-> | []]. rewrite Hres.
      change (mkSegment (start_line seg) (end_line seg) (chapter seg)
                (section seg) (heading seg) [sent])
        with (group_segment seg [sent]).
      now apply in_map.
Qed.

Lemma split_large_segment_bound_witness :
  (word_count two_sentences <= 5
   /\ split_large_segment two_sentences 5 = [two_sentences])
  /\ (1 < word_count two_sentences
      /\ Forall (fun c => word_count c <= 1
                          \/ oversized_sentence two_sentences 1 c)
           (split_large_segment two_sentences 1)
      /\ In (mkSegment 1 1 None None None [str_of "One two three."])
           (split_large_segment two_sentences 1)
      /\ In (mkSegment 1 1 None None None [str_of "Four five."])
           (split_large_segment two_sentences 1)).
Proof.
  assert (H5 : word_count two_sentences <= 5) by (vm_compute; congruence).
  assert (H1 : 1 < word_count two_sentences) by (vm_compute; reflexivity).
  split; [split; [exact H5|]|split; [exact H1|]].
  - exact (proj1 (split_large_segment_bound two_sentences 5) H5).
  - destruct (proj2 (split_large_segment_bound two_sentences 1) H1)
      as [Hbound [_ Hin]].
    split; [exact Hbound|]. split.
    + apply (Hin (str_of "One two three.")).
      * vm_compute. auto.
      * vm_compute. reflexivity.
    + apply (Hin (str_of "Four five.")).
      * vm_compute. auto.
      * vm_compute. reflexivity.
Defined.

(** C8: every segment that [split_large_segment] returns has the start
    line, end line, chapter, section and heading of the segment it was
    given. *)
Theorem split_large_segment_provenance (seg : Segment) (max_words : Z) :
  Forall (same_provenance seg) (split_large_segment seg max_words).
Proof.
  unfold split_large_segment. destruct (word_count seg <=? max_words).
  - constructor; [repeat split | constructor].
  - apply split_loop_provenance. constructor.
Qed.

(** C9, as stated, fails: the sample input does not give three
    segments. *)
Lemma example_not_three_segments :
  ~ exists s1 s2 s3,
      build_semantic_segments example_lines = Ok [s1; s2; s3].
Proof. intros [s1 [s2 [s3 H]]]. vm_compute in H. discriminate. Qed.

(** C9 (amended): on the sample input the segmenter returns exactly two
    segments: lines 1 to 2 under chapter 1, no section, heading
    Chapter 1, with text CHAPTER 1. Intro text here.; and lines 3 to 4
    under chapter 1, section 1.1, heading Basics, with text
    1.1 Basics More content. *)
Theorem example_two_segments :
  build_semantic_segments example_lines
  = Ok [mkSegment 1 2 (Some (str_of "1")) None (Some (str_of "Chapter 1"))
          [str_of "CHAPTER 1."; str_of "Intro text here."];
        mkSegment 3 4 (Some (str_of "1")) (Some (str_of "1.1"))
          (Some (str_of "Basics"))
          [str_of "1.1 Basics"; str_of "More content."]]
  /\ (forall segs,
        build_semantic_segments example_lines = Ok segs ->
        map text segs
        = [str_of "CHAPTER 1. Intro text here.";
           str_of "1.1 Basics More content."]).
Proof.
  split; [vm_compute; reflexivity|].
  intros segs H. vm_compute in H. injection H as H. subst segs.
  vm_compute. reflexivity.
Qed.

(** C10: on no lines at all the segmenter returns the empty list, the
    close of the final segment not being reached, and the size
    normaliser returns the empty list on the empty list for every
    window. *)
Theorem empty_input (min_words max_words : Z) :
  scan_loop 1 [] scan_init = scan_init
  /\ idx scan_init = None
  /\ truthy (current_lines scan_init) = false
  /\ build_semantic_segments [] = Ok []
  /\ enforce_size_constraints [] min_words max_words = [].
Proof. repeat split. Qed.

(** * Further properties *)

(** ** Word counts *)

(** X1: the word count of a segment is the number of words of its
    lines, and its words are the words of its lines in order: joining
    the stripped lines changes neither. *)
Theorem word_count_is_line_words (seg : Segment) :
  word_count seg = Z.of_nat (length (concat (map split (text_lines seg))))
  /\ split (text seg) = concat (map split (text_lines seg)).
Proof. split; [apply word_count_lines | apply words_lines]. Qed.

(** ** Results of the heading classifier *)

Lemma span_spec (p : ascii -> bool) (s : str) :
  forall a b,
    span p s = (a, b) ->
    s = a ++ b /\ forallb p a = true
    /\ (b = [] \/ exists c b', b = c :: b' /\ p c = false).
Proof.
  induction s as [|c s IH]; intros a b H; simpl in H.
  - injection H as <- <-. auto.
  - destruct (p c) eqn:Hc.
    + destruct (span p s) as [a' b'] eqn:E. injection H as <- <-.
      destruct (IH a' b' eq_refl) as [H1 [H2 H3]]. simpl.
      rewrite Hc, H2. repeat split; [congruence | exact H3].
    + injection H as <- <-. repeat split. right. eauto.
Qed.

Lemma rstrip_by_last (p : ascii -> bool) (s : str) :
  forall a c, rstrip_by p s = a ++ [c] -> p c = false.
Proof.
  induction s as [|x s IH]; intros a c H; simpl in H.
  - destruct a; discriminate.
  - destruct (rstrip_by p s) as [|r0 r] eqn:E.
    + destruct (p x) eqn:Hx.
      * destruct a; discriminate.
      * destruct a as [|a0 a]; [now injection H as <- | ].
        destruct a; discriminate.
    + destruct a as [|a0 a]; [discriminate|].
      injection H as _ H. now apply (IH a).
Qed.

Lemma rstrip_by_idempotent (p : ascii -> bool) (s : str) :
  rstrip_by p (rstrip_by p s) = rstrip_by p s.
Proof.
  induction s as [|x s IH]; [reflexivity|]. simpl.
  destruct (rstrip_by p s) as [|r0 r] eqn:E.
  - destruct (p x) eqn:Hx; simpl; now rewrite ?Hx.
  - change (rstrip_by p (x :: r0 :: r)) with
      (match rstrip_by p (r0 :: r) with
       | [] => if p x then [] else [x]
       | y :: r' => x :: y :: r'
       end).
    now rewrite IH.
Qed.

Lemma lstrip_by_head (p : ascii -> bool) (s : str) :
  forall c v, lstrip_by p s = c :: v -> p c = false.
Proof.
  induction s as [|x s IH]; intros c v H; simpl in H; [discriminate|].
  destruct (p x) eqn:Hx; [now apply (IH c v) | congruence].
Qed.

Lemma strip_idempotent (s : str) : strip (strip s) = strip s.
Proof.
  unfold strip at 2 3.
  destruct (lstrip_by isspace (rstrip_by isspace s)) as [|c v] eqn:E;
    [reflexivity|].
  pose proof (lstrip_by_head _ _ _ _ E) as Hc.
  destruct (lstrip_by_decompose isspace (rstrip_by isspace s)) as [ws [Hu _]].
  rewrite E in Hu.
  pose proof (rstrip_by_idempotent isspace s) as Hid.
  rewrite Hu in Hid at 1. rewrite (rstrip_by_app_keep _ _ _ _ Hc) in Hid.
  rewrite Hu in Hid. apply app_inv_head in Hid. injection Hid as Hv.
  unfold strip. rewrite (rstrip_by_cons_keep _ _ _ Hc), Hv. simpl.
  now rewrite Hc.
Qed.

Lemma strip_last (s a : str) (c : ascii) :
  strip s = a ++ [c] -> isspace c = false.
Proof.
  unfold strip. intros H.
  destruct (lstrip_by_decompose isspace (rstrip_by isspace s)) as [ws [Hu _]].
  rewrite H, app_assoc in Hu. now apply rstrip_by_last in Hu.
Qed.

Lemma strip_keeps_last (t : str) (c : ascii) :
  isspace c = false -> strip (t ++ [c]) <> [].
Proof.
  intros Hc. unfold strip.
  rewrite (rstrip_by_app_keep _ _ _ _ Hc), (lstrip_by_app_keep _ _ _ _ Hc).
  simpl. intros E. now apply app_eq_nil in E.
Qed.

Lemma CHAPTER_RE_match_digits (s digits : str) :
  CHAPTER_RE_match s = Some digits ->
  digits <> [] /\ forallb isdigit digits = true.
Proof.
  unfold CHAPTER_RE_match.
  destruct (match_ci (str_of "CHAPTER") (lstrip_by isspace s)) as [s2|];
    [|discriminate].
  destruct s2 as [|c s2]; [discriminate|].
  destruct (isspace c); [|discriminate].
  destruct (span isdigit (lstrip_by isspace (c :: s2))) as [d s4] eqn:E.
  destruct (span_spec _ _ _ _ E) as [_ [Hd _]].
  destruct d as [|d0 d]; [discriminate|]. destruct s4 as [|x s4]; [discriminate|].
  destruct (is_dot x); [|discriminate].
  intros H. injection H as <-. split; [discriminate | exact Hd].
Qed.

Lemma dotted_spec (s : str) :
  forall l r n,
    dotted s = (l, r, n) ->
    s = l ++ r
    /\ forallb (fun x => isdigit x || is_dot x) l = true
    /\ (n <> O -> existsb is_dot l = true).
Proof.
  induction s as [|c s IH]; intros l r n H; simpl in H.
  - injection H as <- <- <-. auto.
  - destruct (isdigit c) eqn:Hc.
    + destruct (dotted s) as [[l' r'] n'] eqn:E. injection H as <- <- <-.
      destruct (IH _ _ _ eq_refl) as [H1 [H2 H3]]. simpl.
      rewrite Hc, H2. repeat split; [congruence|].
      intros Hn. rewrite (H3 Hn). apply orb_true_r.
    + destruct (is_dot c) eqn:Hdot.
      * destruct s as [|d s']; [injection H as <- <- <-; auto|].
        destruct (isdigit d) eqn:Hd; [|injection H as <- <- <-; auto].
        destruct (dotted (d :: s')) as [[l' r'] n'] eqn:E.
        injection H as <- <- <-.
        destruct (IH _ _ _ eq_refl) as [H1 [H2 H3]]. simpl.
        rewrite Hc, Hdot, H2. repeat split. congruence.
      * injection H as <- <- <-. auto.
Qed.

Lemma title_end_spec (s t : str) :
  title_end s = Some t ->
  t <> []
  /\ (s = t \/ exists c, s = t ++ [c] /\ is_newline c = true).
Proof.
  unfold title_end.
  destruct (span (fun c => negb (is_newline c)) s) as [t' r] eqn:E.
  destruct (span_spec _ _ _ _ E) as [Hs [_ Hr]].
  destruct t' as [|t0 t']; [discriminate|].
  destruct r as [|c [|c' r]]; intros H; try discriminate;
    injection H as <-; (split; [discriminate|]).
  - left. now rewrite app_nil_r in Hs.
  - right. exists c. split; [exact Hs|].
    destruct Hr as [Hr | [c0 [b' [Hr Hc0]]]]; [discriminate|].
    injection Hr as <- _. now apply negb_false_iff in Hc0.
Qed.

Lemma ws_title_spec (s : str) :
  forall t,
    ws_title s = Some t ->
    t <> []
    /\ exists pfx,
         s = pfx ++ t \/ exists c, s = pfx ++ t ++ [c] /\ is_newline c = true.
Proof.
  assert (Hend : forall s t, title_end s = Some t ->
            t <> [] /\ exists pfx,
              s = pfx ++ t
              \/ exists c, s = pfx ++ t ++ [c] /\ is_newline c = true).
  { intros s0 t H. destruct (title_end_spec _ _ H) as [Hne Hs].
    split; [exact Hne|]. exists []. exact Hs. }
  induction s as [|c s IH]; intros t H; simpl in H.
  - now apply Hend.
  - destruct (isspace c); [|now apply Hend].
    destruct (ws_title s) as [t'|] eqn:E; [|now apply Hend].
    injection H as <-. destruct (IH _ eq_refl) as [Hne [pfx Hs]].
    split; [exact Hne|]. exists (c :: pfx).
    destruct Hs as [Hs | [x [Hs Hx]]]; [left | right; exists x];
      simpl; now rewrite Hs.
Qed.

Lemma SECTION_RE_match_spec (s lab t : str) :
  SECTION_RE_match s = Some (lab, t) ->
  (exists c l,
     lab = c :: l /\ isdigit c = true
     /\ forallb (fun x => isdigit x || is_dot x) l = true
     /\ existsb is_dot l = true)
  /\ t <> []
  /\ exists pfx,
       s = pfx ++ t \/ exists c, s = pfx ++ t ++ [c] /\ is_newline c = true.
Proof.
  unfold SECTION_RE_match.
  destruct (lstrip_by_decompose isspace s) as [ws [Hs _]].
  destruct (lstrip_by isspace s) as [|c s2]; [discriminate|].
  destruct (isdigit c) eqn:Hc; [|discriminate].
  destruct (dotted s2) as [[l r] n] eqn:E.
  destruct (dotted_spec _ _ _ _ E) as [Hs2 [Hl Hn]].
  destruct n as [|n]; [discriminate|]. destruct r as [|w r']; [discriminate|].
  destruct (isspace w); [|discriminate].
  destruct (ws_title r') as [t'|] eqn:Et; [|discriminate].
  intros H. injection H as <- <-.
  destruct (ws_title_spec _ _ Et) as [Hne [pfx Hr]].
  split; [exists c, l; repeat split; auto|]. split; [exact Hne|].
  exists (ws ++ c :: l ++ w :: pfx).
  destruct Hr as [Hr | [x [Hr Hx]]]; [left | right; exists x; split; auto];
    rewrite Hs, Hs2, Hr, <- !app_assoc; simpl; now rewrite <- ?app_assoc.
Qed.

(** X2: the result of the classifier is one of four: not a heading; the
    Glossary heading; a chapter whose number is a non-empty string of
    digits and whose heading is Chapter followed by that number; or a
    section under the current chapter, whose label is digits and dots
    with at least one dot and whose title is non-empty and has no
    whitespace around it.  So the heading is present whenever the chapter
    or the section is. *)
Theorem classify_heading_shape (line : str) (cur : option str) :
  heading_shape cur (classify_heading line cur).
Proof.
  unfold classify_heading, heading_shape.
  destruct (GLOSSARY_RE_search (strip line)); [auto|].
  destruct (CHAPTER_RE_match (strip line)) as [d|] eqn:Ec.
  - destruct (CHAPTER_RE_match_digits _ _ Ec) as [Hne Hd].
    right. right. left. exists d. auto.
  - destruct (SECTION_RE_match (strip line)) as [[lab t]|] eqn:Es; [|auto].
    destruct (SECTION_RE_match_spec _ _ _ Es)
      as [[c [l [-> [Hc [Hl Hdot]]]]] [Hne [pfx Hs]]].
    right. right. right. exists c, l, (strip t).
    repeat split; try assumption; [|apply strip_idempotent].
    destruct (exists_last Hne) as [t' [x ->]].
    apply strip_keeps_last.
    destruct Hs as [Hs | [nl [Hs Hnl]]].
    + rewrite app_assoc in Hs. exact (strip_last _ _ _ Hs).
    + exfalso. rewrite !app_assoc in Hs. apply strip_last in Hs.
      unfold is_newline in Hnl. apply Ascii.eqb_eq in Hnl. subst nl.
      discriminate.
Qed.

(** ** The text, the labels and the cuts of the segments *)

Lemma newlines_are_space (ws : str) :
  forallb is_newline ws = true -> forallb isspace ws = true.
Proof.
  induction ws as [|c ws IH]; [reflexivity|]. simpl.
  intros H. apply andb_true_iff in H. destruct H as [Hc H].
  rewrite (IH H), andb_true_r. unfold is_newline in Hc.
  apply Ascii.eqb_eq in Hc. now subst c.
Qed.

Lemma rstrip_by_app_all (p : ascii -> bool) (a ws : str) :
  forallb p ws = true -> rstrip_by p (a ++ ws) = rstrip_by p a.
Proof.
  intros H. induction a as [|c a IH]; simpl.
  - now apply rstrip_by_all.
  - now rewrite IH.
Qed.

Lemma strip_rstrip_nl (line : str) : strip (rstrip_nl line) = strip line.
Proof.
  unfold strip, rstrip_nl.
  destruct (rstrip_by_decompose is_newline line) as [ws [E F]].
  rewrite E at 2.
  now rewrite (rstrip_by_app_all isspace _ _ (newlines_are_space _ F)).
Qed.

Lemma classify_heading_rstrip_nl (line : str) (cur : option str) :
  classify_heading (rstrip_nl line) cur = classify_heading line cur.
Proof. unfold classify_heading. now rewrite strip_rstrip_nl. Qed.

(** How the result depends on the current chapter. *)
Lemma classify_heading_cases (line : str) :
  (exists ch hd, forall c, classify_heading line c = (Some ch, None, Some hd))
  \/ (exists lab ti,
        forall c, classify_heading line c = (c, Some lab, Some ti))
  \/ (forall c, classify_heading line c = (None, None, None)).
Proof.
  unfold classify_heading.
  destruct (GLOSSARY_RE_search (strip line)); [left; eauto|].
  destruct (CHAPTER_RE_match (strip line)); [left; eauto|].
  destruct (SECTION_RE_match (strip line)) as [[lab ti]|]; [|auto].
  right. left. eauto.
Qed.

Lemma is_heading_line_cur (line : str) (c : option str) :
  is_heading_line line c = is_heading_line line None.
Proof.
  unfold is_heading_line.
  destruct (classify_heading_cases line)
    as [[ch [hd H]] | [[lab [ti H]] | H]]; rewrite !H; try reflexivity.
  simpl. now rewrite !orb_true_r.
Qed.

Lemma is_heading_line_rstrip_nl (line : str) (c : option str) :
  is_heading_line (rstrip_nl line) c = is_heading_line line c.
Proof. unfold is_heading_line. now rewrite classify_heading_rstrip_nl. Qed.

Lemma not_heading_classify (line : str) (c c' : option str) :
  is_heading_line line c = false ->
  classify_heading line c' = (None, None, None).
Proof.
  unfold is_heading_line.
  destruct (classify_heading_cases line)
    as [[ch [hd H]] | [[lab [ti H]] | H]]; rewrite ?H; try discriminate; auto.
  simpl. rewrite orb_true_r. discriminate.
Qed.

(** The labels after one iteration. *)
Lemma scan_step_labels (i : Z) (line : str) (st : scan_state) :
  let st' := scan_step i line st in
  if is_heading_line line (current_chapter st) then
    classify_heading line (current_chapter st')
    = (current_chapter st', current_section st', current_heading st')
  else
    (current_chapter st', current_section st', current_heading st')
    = (current_chapter st, current_section st, current_heading st).
Proof.
  unfold scan_step, is_heading_line.
  destruct (classify_heading_cases line)
    as [[ch [hd H]] | [[lab [ti H]] | H]]; rewrite H; simpl.
  - apply H.
  - rewrite orb_true_r. simpl. rewrite H.
    destruct (current_chapter st); reflexivity.
  - reflexivity.
Qed.

Lemma skipn_app_le {A : Type} (n : nat) (l1 l2 : list A) :
  (n <= length l1)%nat -> skipn n (l1 ++ l2) = skipn n l1 ++ l2.
Proof.
  intros H. rewrite skipn_app.
  replace (n - length l1)%nat with 0%nat by lia. reflexivity.
Qed.

Lemma line_range_pending (pre rest : list str) (first : Z) :
  1 <= first -> first - 1 <= Z.of_nat (length pre) ->
  line_range (pre ++ rest) first (Z.of_nat (length pre))
  = skipn (Z.to_nat (first - 1)) pre.
Proof.
  intros H1 H2. unfold line_range.
  rewrite skipn_app_le by lia.
  replace (Z.to_nat (Z.of_nat (length pre) - first + 1))
    with (length (skipn (Z.to_nat (first - 1)) pre))
    by (rewrite length_skipn; lia).
  apply firstn_length_app.
Qed.

Lemma truthy_snoc {A : Type} (l : list A) (x : A) : truthy (l ++ [x]) = true.
Proof. destruct l; reflexivity. Qed.

Lemma pending_exact_range (lines pre rest : list str) (st : scan_state) :
  lines = pre ++ rest ->
  scan_inv lines pre st ->
  current_lines st
  = map rstrip_nl (skipn (Z.to_nat (current_start_line st - 1)) pre) ->
  exact_range lines (pending_segment st (Z.of_nat (length pre))).
Proof.
  intros Hlines Hinv Hcl. unfold exact_range. simpl.
  rewrite Hlines, line_range_pending; [exact Hcl | apply Hinv |].
  pose proof (inv_length _ _ _ Hinv). lia.
Qed.

Lemma scan_step_text_inv (lines pre rest : list str) (x : str)
    (st : scan_state) :
  lines = pre ++ x :: rest ->
  scan_inv lines pre st ->
  scan_text_inv lines pre st ->
  scan_text_inv lines (pre ++ [x])
    (scan_step (Z.of_nat (length pre) + 1) x st).
Proof.
  intros Hlines Hinv [Tne Tcat Trange Tranges].
  pose proof (scan_step_cases (Z.of_nat (length pre) + 1) x st) as Hstep.
  cbv zeta in Hstep. destruct Hstep as [_ Hstep].
  pose proof (inv_length _ _ _ Hinv) as Ilen.
  pose proof (inv_start _ _ _ Hinv) as Istart.
  destruct Hstep as [[Hh [Hseg [Hcl Hstart]]] | [Hh [Hseg [Hcl Hstart]]]];
    constructor; rewrite ?Hseg, ?Hcl, ?Hstart; try assumption.
  - reflexivity.
  - rewrite map_app. simpl. f_equal.
    destruct (truthy (current_lines st)) eqn:Ht.
    + rewrite concat_map_snoc. exact Tcat.
    + apply falsy_nil in Ht. rewrite Ht, app_nil_r in Tcat. exact Tcat.
  - replace (Z.to_nat (Z.of_nat (length pre) + 1 - 1)) with (length pre)
      by lia.
    rewrite skipn_app, skipn_all, Nat.sub_diag. reflexivity.
  - destruct (truthy (current_lines st)); [|exact Tranges].
    apply Forall_app. split; [exact Tranges|].
    constructor; [|constructor].
    replace (Z.of_nat (length pre) + 1 - 1) with (Z.of_nat (length pre))
      by lia.
    now apply (pending_exact_range lines pre (x :: rest)).
  - intros _. apply truthy_snoc.
  - rewrite map_app, app_assoc, Tcat. reflexivity.
  - rewrite skipn_app_le by lia. rewrite map_app, <- Trange. reflexivity.
Qed.

Lemma segment_count_snoc (pre : list str) (x : str) :
  segment_count (pre ++ [x])
  = match pre with
    | [] => 1%nat
    | _ :: _ =>
        (segment_count pre + (if is_heading_line x None then 1 else 0))%nat
    end.
Proof.
  destruct pre as [|p0 pre]; [reflexivity|]. simpl.
  rewrite filter_app, length_app. simpl.
  destruct (is_heading_line x None); simpl; lia.
Qed.

Lemma pending_truthy (lines pre : list str) (st : scan_state) :
  scan_inv lines pre st -> scan_text_inv lines pre st ->
  truthy (current_lines st) = truthy pre.
Proof.
  intros Hinv Ht. destruct pre as [|p0 pre].
  - pose proof (inv_length _ _ _ Hinv) as Ilen.
    pose proof (inv_start _ _ _ Hinv) as Istart. simpl in Ilen.
    destruct (current_lines st); [reflexivity | simpl in Ilen; lia].
  - apply (t_nonempty _ _ _ Ht). discriminate.
Qed.

Lemma scan_step_cut_inv (lines pre rest : list str) (x : str)
    (st : scan_state) :
  lines = pre ++ x :: rest ->
  scan_inv lines pre st ->
  scan_text_inv lines pre st ->
  scan_cut_inv pre st ->
  scan_cut_inv (pre ++ [x]) (scan_step (Z.of_nat (length pre) + 1) x st).
Proof.
  intros Hlines Hinv Htext [Cpl Cl Cpb Cb Cph Ch Cc].
  pose proof (scan_step_cases (Z.of_nat (length pre) + 1) x st) as Hstep.
  pose proof (scan_step_labels (Z.of_nat (length pre) + 1) x st) as Hlab.
  cbv zeta in Hstep, Hlab. destruct Hstep as [_ Hstep].
  pose proof (pending_truthy _ _ _ Hinv Htext) as Htr.
  assert (Hclose :
    forall P : Segment -> Prop,
      Forall P (segments st) ->
      (truthy (current_lines st) = true ->
       P (pending_segment st (Z.of_nat (length pre) + 1 - 1))) ->
      Forall P
        (if truthy (current_lines st)
         then segments st
              ++ [pending_segment st (Z.of_nat (length pre) + 1 - 1)]
         else segments st)).
  { intros P HP Hp. destruct (truthy (current_lines st)); [|exact HP].
    apply Forall_app. split; [exact HP|]. constructor; [auto | constructor]. }
  destruct Hstep as [[Hh [Hseg [Hcl Hstart]]] | [Hh [Hseg [Hcl Hstart]]]];
    rewrite Hh in Hlab.
  - (* a heading line *)
    assert (Hx : is_heading_line (rstrip_nl x) None = true)
      by (now rewrite is_heading_line_rstrip_nl, <- (is_heading_line_cur x
            (current_chapter st))).
    constructor; rewrite ?Hseg, ?Hcl, ?Hstart.
    + now rewrite classify_heading_rstrip_nl.
    + apply Hclose; [exact Cl|]. intros Ht. unfold own_labels. simpl.
      destruct (current_lines st) as [|l ls]; [discriminate|]. eauto.
    + constructor.
    + apply Hclose; [exact Cb|]. intros _. exact Cpb.
    + right. exists (rstrip_nl x), []. auto.
    + apply Hclose; [exact Ch|]. intros _. exact Cph.
    + rewrite segment_count_snoc. rewrite Htr in *.
      rewrite (is_heading_line_cur x) in Hh. rewrite Hh.
      destruct pre; simpl in *; rewrite ?length_app; simpl; lia.
  - (* a body line *)
    assert (Hx : is_heading_line (rstrip_nl x) None = false)
      by (now rewrite is_heading_line_rstrip_nl, <- (is_heading_line_cur x
            (current_chapter st))).
    injection Hlab as H1 H2 H3.
    constructor; rewrite ?Hseg, ?Hcl, ?Hstart, ?H1, ?H2, ?H3; try assumption.
    + destruct (current_lines st) as [|l ls]; simpl; [|exact Cpl].
      injection Cpl as -> -> ->.
      rewrite classify_heading_rstrip_nl.
      apply (not_heading_classify x (current_chapter st)). exact Hh.
    + unfold body_after_first in *.
      destruct (current_lines st) as [|l ls]; simpl; [constructor|].
      apply Forall_app. split; [exact Cpb|]. constructor; [exact Hx | constructor].
    + destruct Cph as [E | [l [ls [E Hl]]]]; [now left | right].
      exists l, (ls ++ [rstrip_nl x]). rewrite E. auto.
    + rewrite segment_count_snoc, truthy_snoc. rewrite Htr in *.
      rewrite (is_heading_line_cur x) in Hh. rewrite Hh.
      destruct pre; simpl in *; lia.
Qed.

Lemma scan_init_text_inv (lines : list str) :
  scan_text_inv lines [] scan_init.
Proof. constructor; simpl; auto. Qed.

Lemma scan_init_cut_inv : scan_cut_inv [] scan_init.
Proof.
  constructor; simpl; auto; try (now constructor).
Qed.

Lemma scan_loop_all_inv (lines rest : list str) :
  forall pre st,
    lines = pre ++ rest ->
    scan_inv lines pre st ->
    scan_text_inv lines pre st ->
    scan_cut_inv pre st ->
    let st' := scan_loop (Z.of_nat (length pre) + 1) rest st in
    scan_inv lines lines st' /\ scan_text_inv lines lines st'
    /\ scan_cut_inv lines st'.
Proof.
  induction rest as [|x rest IH]; intros pre st Hlines Hinv Ht Hc; simpl.
  - rewrite app_nil_r in Hlines. subst pre. auto.
  - replace (Z.of_nat (length pre) + 1 + 1)
      with (Z.of_nat (length (pre ++ [x])) + 1)
      by (rewrite length_app; simpl; lia).
    apply IH.
    + now rewrite <- app_assoc.
    + now apply (scan_step_inv lines pre rest).
    + now apply (scan_step_text_inv lines pre rest).
    + now apply (scan_step_cut_inv lines pre rest).
Qed.

(** The segments closed by the scan: their text, labels and cuts. *)
Lemma closed_segments_text (lines : list str) :
  exists closed,
    closed_segments lines = Ok closed
    /\ concat (map text_lines closed) = map rstrip_nl lines
    /\ Forall (exact_range lines) closed
    /\ Forall own_labels closed
    /\ Forall (fun seg => body_after_first (text_lines seg)) closed
    /\ Forall (fun seg => start_line seg = 1
                          \/ starts_with_heading (text_lines seg)) closed
    /\ length closed = segment_count lines.
Proof.
  destruct (scan_loop_all_inv lines lines [] scan_init eq_refl
              (scan_init_inv lines) (scan_init_text_inv lines)
              scan_init_cut_inv) as [Hinv [Ht Hc]].
  simpl in Hinv, Ht, Hc. unfold closed_segments, close_final.
  set (st := scan_loop 1 lines scan_init) in *.
  pose proof (pending_truthy _ _ _ Hinv Ht) as Htr.
  destruct Ht as [Tne Tcat Trange Tranges].
  destruct Hc as [Cpl Cl Cpb Cb Cph Ch Cc].
  destruct (truthy (current_lines st)) eqn:Htruthy.
  - assert (Hne : lines <> []) by (destruct lines; [discriminate Htr | discriminate]).
    rewrite (inv_idx _ _ _ Hinv Hne). eexists. split; [reflexivity|].
    fold (pending_segment st (Z.of_nat (length lines))).
    repeat split.
    + now rewrite concat_map_snoc.
    + apply Forall_app. split; [exact Tranges|]. constructor; [|constructor].
      apply (pending_exact_range lines lines []); auto using app_nil_r.
    + apply Forall_app. split; [exact Cl|]. constructor; [|constructor].
      unfold own_labels. simpl.
      destruct (current_lines st) as [|l ls]; [discriminate|]. eauto.
    + apply Forall_app. split; [exact Cb|]. constructor; [exact Cpb | constructor].
    + apply Forall_app. split; [exact Ch|]. constructor; [exact Cph | constructor].
    + rewrite length_app. simpl. exact Cc.
  - apply falsy_nil in Htruthy. rewrite Htruthy, app_nil_r in Tcat.
    exists (segments st). rewrite Nat.add_0_r in Cc. auto 10.
Qed.

Lemma Forall_filter {A : Type} (P : A -> Prop) (f : A -> bool) (l : list A) :
  Forall P l -> Forall P (filter f l).
Proof.
  induction 1 as [|x l Hx Hl IH]; simpl; [constructor|].
  destruct (f x); [now constructor | exact IH].
Qed.

Lemma words_of_text_lines (l : list Segment) :
  concat (map words l) = concat (map split (concat (map text_lines l))).
Proof.
  induction l as [|seg l IH]; simpl; [reflexivity|].
  now rewrite map_app, concat_app, IH, words_lines.
Qed.

Lemma filter_words (l : list Segment) :
  concat (map words (filter (fun seg => 0 <? word_count seg) l))
  = concat (map words l).
Proof.
  induction l as [|seg l IH]; simpl; [reflexivity|].
  destruct (0 <? word_count seg) eqn:E; simpl; [now rewrite IH|].
  rewrite IH. rewrite word_count_words in E. apply Z.ltb_ge in E.
  destruct (words seg); [reflexivity | simpl length in E; lia].
Qed.

Lemma build_is_filter (lines : list str) (closed : list Segment) :
  closed_segments lines = Ok closed ->
  build_semantic_segments lines
  = Ok (filter (fun seg => 0 <? word_count seg) closed).
Proof. intros H. unfold build_semantic_segments. now rewrite H. Qed.

(** X3: the scan loses no line: the lines of the closed segments, in
    order, are the input lines without the newlines that end them; and
    the words of the returned segments, in order, are the words of the
    input lines. *)
Theorem segmenter_keeps_text (lines : list str) :
  exists closed segs,
    closed_segments lines = Ok closed
    /\ concat (map text_lines closed) = map rstrip_nl lines
    /\ build_semantic_segments lines = Ok segs
    /\ concat (map words segs) = concat (map split lines).
Proof.
  destruct (closed_segments_text lines) as [closed [Hc [Hcat _]]].
  exists closed, (filter (fun seg => 0 <? word_count seg) closed).
  repeat split; auto using build_is_filter.
  rewrite filter_words, words_of_text_lines, Hcat, map_map.
  f_equal. apply map_ext. apply split_rstrip_nl.
Qed.

(** X4: the lines of every returned segment are exactly the input lines
    numbered start_line to end_line, without the newlines that end
    them. *)
Theorem segments_hold_their_range (lines : list str) :
  exists segs,
    build_semantic_segments lines = Ok segs
    /\ Forall (exact_range lines) segs.
Proof.
  destruct (closed_segments_text lines) as [closed [Hc [_ [Hr _]]]].
  eexists. split; [apply build_is_filter; exact Hc|]. now apply Forall_filter.
Qed.

(** X5: the chapter, section and heading of every returned segment are
    what [classify_heading] gives for the first line of the segment under
    the chapter of the segment: the labels of its own heading line, and no
    label at all for text before the first heading. *)
Theorem segments_carry_own_labels (lines : list str) :
  exists segs,
    build_semantic_segments lines = Ok segs /\ Forall own_labels segs.
Proof.
  destruct (closed_segments_text lines) as [closed [Hc [_ [_ [Hl _]]]]].
  eexists. split; [apply build_is_filter; exact Hc|]. now apply Forall_filter.
Qed.

(** X6: segments are cut at headings and nowhere else: in every returned
    segment no line after the first is a heading, and every returned
    segment that does not start at line 1 starts with a heading. *)
Theorem segments_cut_at_headings (lines : list str) :
  exists segs,
    build_semantic_segments lines = Ok segs
    /\ Forall (fun seg => body_after_first (text_lines seg)) segs
    /\ Forall (fun seg => start_line seg = 1
                          \/ starts_with_heading (text_lines seg)) segs.
Proof.
  destruct (closed_segments_text lines) as [closed [Hc [_ [_ [_ [Hb [Hh _]]]]]]].
  eexists. split; [apply build_is_filter; exact Hc|].
  split; now apply Forall_filter.
Qed.

Lemma contiguous_from_In (segs : list Segment) :
  forall k n seg,
    contiguous_from k segs n -> In seg segs ->
    k < start_line seg /\ start_line seg <= end_line seg /\ end_line seg <= n.
Proof.
  induction segs as [|x segs IH]; intros k n seg H Hin; simpl in *.
  - contradiction.
  - destruct H as [Hs [Hle Hrest]].
    pose proof (contiguous_from_le _ _ _ Hrest) as Hn.
    destruct Hin as [<- | Hin]; [lia|].
    destruct (IH _ _ _ Hrest Hin) as [H1 [H2 H3]]. lia.
Qed.

Lemma closed_segments_all_kept (first : str) (rest : list str)
    (closed : list Segment) :
  ~ blank first ->
  closed_segments (first :: rest) = Ok closed ->
  filter (fun seg => 0 <? word_count seg) closed = closed.
Proof.
  intros Hfirst Hc.
  destruct (closed_segments_spec (first :: rest))
    as [closed' [Hc' [Hcont [Hw Hp]]]].
  rewrite Hc in Hc'. injection Hc' as <-.
  apply filter_keeps_all. rewrite Forall_forall in *. intros seg Hin.
  apply Z.ltb_lt.
  destruct (Hw seg Hin) as [H1 | Hpos]; [|exact Hpos].
  destruct (Z_lt_le_dec 0 (word_count seg)) as [Hlt | Hle]; [exact Hlt|].
  exfalso. apply Hfirst.
  pose proof (word_count_nonneg seg) as Hnn.
  destruct (contiguous_from_In _ _ _ _ Hcont Hin) as [_ [Hse _]].
  apply (no_words_blank_lines (first :: rest) seg ltac:(lia) (Hp seg Hin H1)
           0%nat first eq_refl).
  lia.
Qed.

(** X7: when the first line is not blank, the number of returned
    segments is one more than the number of headings among the lines
    after the first. *)
Theorem segment_count_by_headings (first : str) (rest : list str) :
  ~ blank first ->
  exists segs,
    build_semantic_segments (first :: rest) = Ok segs
    /\ length segs
       = S (length (filter (fun l => is_heading_line l None) rest)).
Proof.
  intros Hfirst.
  destruct (closed_segments_text (first :: rest))
    as [closed [Hc [_ [_ [_ [_ [_ Hcount]]]]]]].
  exists closed. split; [|exact Hcount].
  rewrite (build_is_filter _ _ Hc).
  now rewrite (closed_segments_all_kept first rest closed Hfirst Hc).
Qed.

Lemma segment_count_by_headings_witness :
  ~ blank (file_line "CHAPTER 1.")
  /\ exists segs,
       build_semantic_segments example_lines = Ok segs
       /\ length segs = 2%nat.
Proof.
  assert (H : ~ blank (file_line "CHAPTER 1."))
    by (intros E; vm_compute in E; discriminate).
  split; [exact H|].
  exact (segment_count_by_headings (file_line "CHAPTER 1.")
           [file_line "Intro text here."; file_line "1.1 Basics";
            file_line "More content."] H).
Defined.

(** ** Sizes after merging and splitting *)

Lemma truthy_strip_words (s : str) :
  truthy (strip s) = true -> split (strip s) <> [].
Proof.
  intros Ht Hs. rewrite split_strip in Hs. apply split_nil_blank in Hs.
  unfold blank in Hs. rewrite Hs in Ht. discriminate.
Qed.

Lemma group_segment_positive (seg : Segment) (sents : list str) :
  sents <> [] -> Forall (fun s => split s <> []) sents ->
  0 < word_count (group_segment seg sents).
Proof.
  intros Hne Hall. rewrite word_count_group_segment.
  destruct sents as [|s sents]; [contradiction|].
  inversion Hall as [|? ? Hs _]; subst. simpl. rewrite length_app.
  destruct (split s); [contradiction | simpl; lia].
Qed.

Lemma split_loop_positive (seg : Segment) (max_words : Z)
    (pieces : list str) :
  forall st,
    Forall (fun c => 0 < word_count c) (chunks st) ->
    Forall (fun s => split s <> []) (current_sentences st) ->
    Forall (fun c => 0 < word_count c)
      (split_finish seg (fold_left (split_step seg max_words) pieces st)).
Proof.
  induction pieces as [|x pieces IH]; intros st Hch Hcur; simpl.
  - unfold split_finish.
    destruct (current_sentences st) as [|s ss] eqn:E; simpl; [exact Hch|].
    apply Forall_app. split; [exact Hch|]. constructor; [|constructor].
    apply group_segment_positive; [discriminate | exact Hcur].
  - unfold split_step.
    destruct (truthy (strip x)) eqn:Hx; simpl negb; cbv iota;
      [|now apply IH].
    pose proof (truthy_strip_words _ Hx) as Hw.
    destruct (truthy (current_sentences st)
              && (current_wc st + Z.of_nat (length (split (strip x)))
                  >? max_words)) eqn:Hflush.
    + apply IH; simpl.
      * apply Forall_app. split; [exact Hch|]. constructor; [|constructor].
        apply group_segment_positive; [|exact Hcur].
        destruct (current_sentences st); [discriminate Hflush | discriminate].
      * constructor; [exact Hw | constructor].
    + apply IH; simpl; [exact Hch|].
      apply Forall_app. split; [exact Hcur|]. constructor; [exact Hw | constructor].
Qed.

Lemma split_pieces_positive (seg : Segment) (max_words : Z) :
  max_words < word_count seg ->
  Forall (fun c => 0 < word_count c) (split_large_segment seg max_words).
Proof.
  intros Hbig. unfold split_large_segment.
  destruct (word_count seg <=? max_words) eqn:E; [lia|].
  apply split_loop_positive; constructor.
Qed.

Lemma split_or_keep_positive (max_words : Z) (seg : Segment) :
  0 < word_count seg ->
  Forall (fun c => 0 < word_count c) (split_or_keep max_words seg).
Proof.
  intros Hpos. unfold split_or_keep.
  destruct (word_count seg >? max_words) eqn:E.
  - apply split_pieces_positive. lia.
  - constructor; [exact Hpos | constructor].
Qed.

Lemma merge_step_positive (min_words : Z) (st : merge_state) (x : Segment) :
  Forall (fun c => 0 < word_count c) (flushed st) ->
  0 < word_count x ->
  Forall (fun c => 0 < word_count c) (flushed (merge_step min_words st x)).
Proof.
  destruct st as [m [b|]]; unfold flushed, merge_step, flush_buffer; simpl.
  - intros H Hx. apply Forall_app in H. destruct H as [Hm Hb].
    inversion Hb as [|? ? Hb' _]; subst.
    destruct (word_count b <? min_words); simpl.
    + apply Forall_app. split; [exact Hm|]. constructor; [|constructor].
      rewrite word_count_combine. lia.
    + apply Forall_app. split; [|now repeat constructor].
      apply Forall_app. split; [exact Hm | now repeat constructor].
  - intros H Hx. apply Forall_app. split; [exact H | now repeat constructor].
Qed.

Lemma merge_small_positive (segs : list Segment) (min_words : Z) :
  Forall (fun c => 0 < word_count c) segs ->
  Forall (fun c => 0 < word_count c) (merge_small segs min_words).
Proof.
  unfold merge_small. change (fun st => fst (flush_buffer st)) with flushed.
  assert (H : forall st,
            Forall (fun c => 0 < word_count c) (flushed st) ->
            Forall (fun c => 0 < word_count c) segs ->
            Forall (fun c => 0 < word_count c)
              (flushed (fold_left (merge_step min_words) segs st))).
  { induction segs as [|x segs IH]; intros st Hst Hsegs; simpl; [exact Hst|].
    inversion Hsegs; subst. apply IH; [|assumption].
    now apply merge_step_positive. }
  intros Hsegs. apply (H ([], None)); [constructor | exact Hsegs].
Qed.

Lemma enforce_positive (segs : list Segment) (min_words max_words : Z) :
  Forall (fun c => 0 < word_count c) segs ->
  Forall (fun c => 0 < word_count c)
    (enforce_size_constraints segs min_words max_words).
Proof.
  intros H. rewrite enforce_flat_map.
  apply (merge_small_positive _ min_words) in H.
  induction H as [|m ms Hm _ IH]; simpl; [constructor|].
  apply Forall_app. split; [now apply split_or_keep_positive | exact IH].
Qed.

(** X8: no empty chunk comes out of the size normaliser: when every
    input segment has at least one word, so has every chunk, for every
    window. *)
Theorem enforce_size_constraints_no_empty_chunk (segs : list Segment)
    (min_words max_words : Z) :
  Forall (fun c => 0 < word_count c) segs ->
  Forall (fun c => 0 < word_count c)
    (enforce_size_constraints segs min_words max_words).
Proof. apply enforce_positive. Qed.

Lemma enforce_size_constraints_no_empty_chunk_witness :
  Forall (fun c => 0 < word_count c) three_segments
  /\ Forall (fun c => 0 < word_count c)
       (enforce_size_constraints three_segments 2 2).
Proof.
  assert (H : Forall (fun c => 0 < word_count c) three_segments)
    by (repeat constructor).
  split; [exact H|].
  exact (enforce_size_constraints_no_empty_chunk three_segments 2 2 H).
Defined.

(** X9: [split_large_segment] returns no segment at all in one case
    only: a segment without any word under a negative [max_words]. *)
Theorem split_large_segment_empty_iff (seg : Segment) (max_words : Z) :
  split_large_segment seg max_words = []
  <-> word_count seg = 0 /\ max_words < 0.
Proof.
  pose proof (split_large_segment_words seg max_words) as Hw.
  pose proof (word_count_nonneg seg) as Hnn.
  split.
  - intros E. rewrite E in Hw. simpl in Hw.
    assert (Hwc : word_count seg = 0)
      by (rewrite word_count_words, <- Hw; reflexivity).
    split; [exact Hwc|].
    unfold split_large_segment in E.
    destruct (word_count seg <=? max_words) eqn:Hle; [discriminate | lia].
  - intros [Hwc Hmax].
    pose proof (split_pieces_positive seg max_words ltac:(lia)) as Hpos.
    destruct (split_large_segment seg max_words) as [|c r]; [reflexivity|].
    exfalso. inversion Hpos as [|? ? Hc _]; subst.
    rewrite word_count_words in Hc, Hwc. simpl in Hw.
    destruct (words seg); [|simpl in Hwc; lia].
    apply app_eq_nil in Hw. destruct Hw as [Hw _]. rewrite Hw in Hc.
    simpl in Hc. lia.
Qed.

(** ** Lines and ranges through the merge pass *)

Lemma merge_step_text_lines (min_words : Z) (st : merge_state)
    (x : Segment) :
  concat (map text_lines (flushed (merge_step min_words st x)))
  = concat (map text_lines (flushed st)) ++ text_lines x.
Proof.
  destruct st as [m [b|]]; unfold flushed, merge_step, flush_buffer; simpl.
  - destruct (word_count b <? min_words); simpl.
    + rewrite !concat_map_snoc. simpl. now rewrite app_assoc.
    + now rewrite !concat_map_snoc.
  - now rewrite concat_map_snoc.
Qed.

Lemma merge_loop_text_lines (min_words : Z) (segs : list Segment) :
  forall st,
    concat (map text_lines
              (flushed (fold_left (merge_step min_words) segs st)))
    = concat (map text_lines (flushed st))
      ++ concat (map text_lines segs).
Proof.
  induction segs as [|x segs IH]; intros st; simpl.
  - now rewrite app_nil_r.
  - rewrite IH, merge_step_text_lines. now rewrite <- app_assoc.
Qed.

(** X10: the merge pass keeps every line in its place: the lines of the
    merged segments, in order, are the lines of the input segments, in
    order. *)
Theorem merge_small_keeps_lines (segs : list Segment) (min_words : Z) :
  concat (map text_lines (merge_small segs min_words))
  = concat (map text_lines segs).
Proof. apply (merge_loop_text_lines min_words segs ([], None)). Qed.

Lemma contiguous_from_last (m : list Segment) (b : Segment) :
  forall k j,
    contiguous_from k (m ++ [b]) j ->
    exists j0,
      contiguous_from k m j0 /\ start_line b = j0 + 1
      /\ start_line b <= end_line b /\ j = end_line b.
Proof.
  induction m as [|x m IH]; intros k j H; simpl in *.
  - destruct H as [H1 [H2 H3]]. exists k. auto.
  - destruct H as [H1 [H2 H3]]. destruct (IH _ _ H3) as [j0 [H4 H5]].
    exists j0. auto.
Qed.

Lemma merge_step_contiguous (min_words k j : Z) (st : merge_state)
    (x : Segment) :
  contiguous_from k (flushed st) j ->
  start_line x = j + 1 -> start_line x <= end_line x ->
  contiguous_from k (flushed (merge_step min_words st x)) (end_line x).
Proof.
  destruct st as [m [b|]]; unfold flushed, merge_step, flush_buffer; simpl;
    intros H Hs Hle.
  - destruct (word_count b <? min_words); simpl.
    + destruct (contiguous_from_last _ _ _ _ H) as [j0 [Hm [Hb [Hbe Hj]]]].
      apply (contiguous_from_snoc m k j0 (combine_segments b x) Hm);
        simpl; lia.
    + now apply (contiguous_from_snoc _ k j).
  - now apply (contiguous_from_snoc _ k j).
Qed.

Lemma merge_loop_contiguous (min_words k : Z) (segs : list Segment) :
  forall st j n,
    contiguous_from k (flushed st) j ->
    contiguous_from j segs n ->
    contiguous_from k (flushed (fold_left (merge_step min_words) segs st)) n.
Proof.
  induction segs as [|x segs IH]; intros st j n Hst Hsegs; simpl in *.
  - now subst j.
  - destruct Hsegs as [Hs [Hle Hrest]].
    apply (IH _ (end_line x)); [|exact Hrest].
    now apply (merge_step_contiguous min_words k j).
Qed.

(** X11: the merge pass keeps the line ranges contiguous: when the
    ranges of the input segments follow one another from line k+1 to line
    n without gap or overlap, so do the ranges of the merged segments. *)
Theorem merge_small_contiguous (segs : list Segment) (min_words k n : Z) :
  contiguous_from k segs n ->
  contiguous_from k (merge_small segs min_words) n.
Proof.
  intros H.
  apply (merge_loop_contiguous min_words k segs ([], None) k n);
    [reflexivity | exact H].
Qed.

Lemma merge_small_contiguous_witness :
  contiguous_from 0 three_segments 3
  /\ contiguous_from 0 (merge_small three_segments 3) 3.
Proof.
  assert (H : contiguous_from 0 three_segments 3)
    by (simpl; repeat split; discriminate).
  split; [exact H | exact (merge_small_contiguous three_segments 3 0 3 H)].
Defined.

(** ** Segments already within the window *)

Lemma merge_loop_identity (min_words : Z) (l : list Segment) :
  forall x,
    Forall (fun seg => min_words <= word_count seg) l ->
    fold_left (merge_step min_words) (l ++ [x]) ([], None) = (l, Some x).
Proof.
  induction l as [|b l IH] using rev_ind; intros x Hl; [reflexivity|].
  apply Forall_app in Hl. destruct Hl as [Hl Hb].
  inversion Hb as [|? ? Hb' _]; subst.
  rewrite fold_left_app, (IH b Hl). unfold merge_step, flush_buffer. simpl.
  destruct (word_count b <? min_words) eqn:E; [lia | reflexivity].
Qed.

Lemma merge_small_identity (segs : list Segment) (min_words : Z) :
  Forall (fun seg => min_words <= word_count seg) (removelast segs) ->
  merge_small segs min_words = segs.
Proof.
  intros H. destruct segs as [|s segs]; [reflexivity|].
  destruct (exists_last (l := s :: segs) ltac:(discriminate)) as [l [x E]].
  rewrite E in *. rewrite removelast_last in H.
  unfold merge_small. now rewrite (merge_loop_identity min_words l x H).
Qed.

Lemma split_pass_identity (segs : list Segment) (max_words : Z) :
  Forall (fun seg => word_count seg <= max_words) segs ->
  flat_map (split_or_keep max_words) segs = segs.
Proof.
  induction 1 as [|seg segs Hseg _ IH]; simpl; [reflexivity|].
  rewrite IH. unfold split_or_keep.
  destruct (word_count seg >? max_words) eqn:E; [lia | reflexivity].
Qed.

(** X12: segments already within the window pass unchanged: when every
    segment but the last has at least [min_words] words and every segment
    has at most [max_words] words, the size normaliser returns its
    input. *)
Theorem enforce_size_constraints_identity (segs : list Segment)
    (min_words max_words : Z) :
  Forall (fun seg => min_words <= word_count seg) (removelast segs) ->
  Forall (fun seg => word_count seg <= max_words) segs ->
  enforce_size_constraints segs min_words max_words = segs.
Proof.
  intros Hmin Hmax.
  rewrite enforce_flat_map, (merge_small_identity _ _ Hmin).
  now apply split_pass_identity.
Qed.

Lemma enforce_size_constraints_identity_witness :
  (Forall (fun seg => 1 <= word_count seg) (removelast three_segments)
   /\ Forall (fun seg => word_count seg <= 3) three_segments)
  /\ enforce_size_constraints three_segments 1 3 = three_segments.
Proof.
  assert (Hmin : Forall (fun seg => 1 <= word_count seg)
                   (removelast three_segments))
    by (repeat constructor; discriminate).
  assert (Hmax : Forall (fun seg => word_count seg <= 3) three_segments)
    by (repeat constructor; discriminate).
  split; [split; assumption|].
  exact (enforce_size_constraints_identity three_segments 1 3 Hmin Hmax).
Defined.

(** ** Serialization and the whole pipeline *)

Lemma json_loop_ids (chunks : list Segment) :
  forall i acc,
    map json_id (json_loop i chunks acc)
    = map json_id acc
      ++ map (fun k => i + Z.of_nat k) (seq 0 (length chunks)).
Proof.
  induction chunks as [|seg rest IH]; intros i acc; simpl.
  - now rewrite app_nil_r.
  - rewrite IH, map_app, <- app_assoc. simpl.
    rewrite Z.add_0_r, <- seq_shift, map_map.
    do 2 f_equal. apply map_ext. intros k. lia.
Qed.

Lemma json_loop_fields {A : Type} (f : json_chunk -> A) (g : Segment -> A) :
  (forall i seg, f (json_of i seg) = g seg) ->
  forall chunks i acc,
    map f (json_loop i chunks acc) = map f acc ++ map g chunks.
Proof.
  intros Hfg chunks.
  induction chunks as [|seg rest IH]; intros j acc; simpl.
  - now rewrite app_nil_r.
  - rewrite IH, map_app, <- app_assoc. simpl. now rewrite Hfg.
Qed.

Lemma chunks_to_json_dicts_ids (chunks : list Segment) :
  map json_id (chunks_to_json_dicts chunks)
  = map Z.of_nat (seq 0 (length chunks)).
Proof. unfold chunks_to_json_dicts. now rewrite json_loop_ids. Qed.

Lemma json_loop_of (chunks : list Segment) :
  forall i done acc,
    Forall2 (fun seg j => exists k, j = json_of k seg) done acc ->
    Forall2 (fun seg j => exists k, j = json_of k seg) (done ++ chunks)
      (json_loop i chunks acc).
Proof.
  induction chunks as [|seg rest IH]; intros i done acc H; simpl.
  - now rewrite app_nil_r.
  - replace (done ++ seg :: rest) with ((done ++ [seg]) ++ rest)
      by (now rewrite <- app_assoc).
    apply IH. apply Forall2_app; [exact H|].
    constructor; [eauto | constructor].
Qed.

(** X13: [chunks_to_json_dicts] numbers the chunks 0, 1, 2, ... in
    their order and copies into each dictionary the labels, the line
    range, the word count and the text of the chunk at that place. *)
Theorem chunks_to_json_dicts_fields (chunks : list Segment) :
  let out := chunks_to_json_dicts chunks in
  map json_id out = map Z.of_nat (seq 0 (length chunks))
  /\ map (fun j => (json_chapter j, json_section j, json_heading j))
       out
     = map (fun seg => (chapter seg, section seg, heading seg)) chunks
  /\ map (fun j => (json_start_line j, json_end_line j)) out
     = map (fun seg => (start_line seg, end_line seg)) chunks
  /\ map json_word_count out = map word_count chunks
  /\ map json_text out = map text chunks.
Proof.
  cbv zeta. split; [apply chunks_to_json_dicts_ids|].
  unfold chunks_to_json_dicts.
  repeat split;
    refine (json_loop_fields _ _ _ chunks 0 []); reflexivity.
Qed.

Lemma filter_all_true {A : Type} (f : A -> bool) (l : list A) :
  Forall (fun x => f x = true) (filter f l).
Proof.
  induction l as [|x l IH]; simpl; [constructor|].
  destruct (f x) eqn:E; [now constructor | exact IH].
Qed.

Lemma build_positive (lines : list str) (segs : list Segment) :
  build_semantic_segments lines = Ok segs ->
  Forall (fun seg => 0 < word_count seg) segs.
Proof.
  unfold build_semantic_segments.
  destruct (closed_segments lines) as [closed|]; [|discriminate].
  intros H. injection H as <-.
  pose proof (filter_all_true (fun seg => 0 <? word_count seg) closed) as F.
  rewrite Forall_forall in *. intros seg Hin. now apply Z.ltb_lt, F.
Qed.

(** X14: the chunking steps of [main] never fail, and for every window
    the words of the texts it writes, in order, are the words of the
    input lines, in order; every text has at least one word, its
    word count is the number of its words, and the ids are 0, 1, 2, ...
    in order. *)
Theorem main_chunks_keeps_words (lines : list str) (min_words max_words : Z) :
  exists out,
    main_chunks lines min_words max_words = Ok out
    /\ concat (map (fun j => split (json_text j)) out)
       = concat (map split lines)
    /\ Forall (fun j => 0 < json_word_count j
                        /\ json_word_count j
                           = Z.of_nat (length (split (json_text j)))) out
    /\ map json_id out = map Z.of_nat (seq 0 (length out)).
Proof.
  destruct (closed_segments_text lines) as [closed [Hc [Hcat _]]].
  pose proof (build_is_filter _ _ Hc) as Hb.
  set (segs := filter (fun seg => 0 <? word_count seg) closed) in *.
  set (final := enforce_size_constraints segs min_words max_words).
  exists (chunks_to_json_dicts final).
  assert (Htext : map json_text (chunks_to_json_dicts final) = map text final)
    by (unfold chunks_to_json_dicts;
        refine (json_loop_fields _ _ _ final 0 []); reflexivity).
  split; [unfold main_chunks; now rewrite Hb|].
  split; [|split].
  - rewrite <- (map_map json_text split), Htext, map_map.
    change (fun seg => split (text seg)) with words. unfold final.
    rewrite enforce_flat_map, flat_map_words, merge_small_words.
    unfold segs.
    rewrite filter_words, words_of_text_lines, Hcat, map_map.
    f_equal. apply map_ext. apply split_rstrip_nl.
  - pose proof (enforce_positive segs min_words max_words
                  (build_positive _ _ Hb)) as Hpos.
    fold final in Hpos.
    pose proof (json_loop_of final 0 [] [] (Forall2_nil _)) as Hof.
    simpl in Hof. fold (chunks_to_json_dicts final) in Hof.
    clear - Hpos Hof. induction Hof as [|seg j segs' js [k ->] _ IH].
    + constructor.
    + inversion Hpos; subst. constructor; [|now apply IH].
      simpl. split; [assumption | apply word_count_words].
  - rewrite chunks_to_json_dicts_ids. do 2 f_equal.
    rewrite <- (length_map json_text), Htext. now rewrite length_map.
Qed.

(** ** Greedy packing of the sentences *)

Lemma adjacent_over_snoc (max_words : Z) (l : list Segment) (x : Segment) :
  adjacent_over max_words l ->
  (forall l' c, l = l' ++ [c] -> max_words < word_count c + word_count x) ->
  adjacent_over max_words (l ++ [x]).
Proof.
  induction l as [|a l IH]; intros Hadj Hlast; [exact I|].
  destruct l as [|b l].
  - simpl. split; [|exact I]. now apply (Hlast [] a).
  - destruct Hadj as [Hab Hrest]. split; [exact Hab|].
    apply IH; [exact Hrest|]. intros l' c E.
    apply (Hlast (a :: l') c). simpl. now rewrite E.
Qed.

Lemma split_loop_adjacent (seg : Segment) (max_words : Z)
    (pieces : list str) :
  forall st,
    adjacent_over max_words (chunks st) ->
    current_wc st
    = Z.of_nat (length (concat (map split (current_sentences st)))) ->
    (forall l c,
       chunks st = l ++ [c] -> max_words < word_count c + current_wc st) ->
    adjacent_over max_words
      (split_finish seg (fold_left (split_step seg max_words) pieces st)).
Proof.
  induction pieces as [|x pieces IH]; intros st Hadj Hwc Hlast; simpl.
  - unfold split_finish. destruct (truthy (current_sentences st)); [|exact Hadj].
    apply adjacent_over_snoc; [exact Hadj|].
    intros l c E. rewrite word_count_group_segment, <- Hwc. now apply (Hlast l).
  - unfold split_step.
    destruct (truthy (strip x)) eqn:Hx; simpl negb; cbv iota;
      [|now apply IH].
    destruct (truthy (current_sentences st)
              && (current_wc st + Z.of_nat (length (split (strip x)))
                  >? max_words)) eqn:Hflush.
    + apply andb_true_iff in Hflush. destruct Hflush as [_ Hgt].
      apply IH; simpl.
      * apply adjacent_over_snoc; [exact Hadj|].
        intros l c E. rewrite word_count_group_segment, <- Hwc.
        now apply (Hlast l).
      * now rewrite app_nil_r.
      * intros l c E. apply app_inj_tail in E. destruct E as [_ <-].
        rewrite word_count_group_segment, <- Hwc. lia.
    + apply IH; simpl; [exact Hadj | |].
      * rewrite concat_map_snoc, length_app, Hwc. lia.
      * intros l c E. specialize (Hlast l c E). lia.
Qed.

(** X15: the sentences are packed greedily: any two neighbours among
    the segments that [split_large_segment] returns have more than
    [max_words] words together, so they could not have been one group. *)
Theorem split_large_segment_greedy (seg : Segment) (max_words : Z) :
  adjacent_over max_words (split_large_segment seg max_words).
Proof.
  unfold split_large_segment.
  destruct (word_count seg <=? max_words); [exact I|].
  apply split_loop_adjacent; simpl; auto.
  intros l c E. destruct l; discriminate.
Qed.

(** ** The Glossary heading, both ways *)

Lemma space_not_word (c : ascii) : isspace c = true -> isword c = false.
Proof.
  destruct c as [[] [] [] [] [] [] [] []]; intros H;
    first [reflexivity | vm_compute in H; discriminate H].
Qed.

Lemma match_ci_inv (pat : str) :
  forall s rest,
    match_ci pat s = Some rest ->
    exists w, s = w ++ rest /\ map lower w = map lower pat.
Proof.
  induction pat as [|p pat IH]; intros s rest H; simpl in H.
  - injection H as <-. exists []. auto.
  - destruct s as [|c s]; [discriminate|].
    destruct (ci_eqb c p) eqn:Hc; [|discriminate].
    destruct (IH _ _ H) as [w [Hs Hw]]. exists (c :: w). simpl.
    unfold ci_eqb in Hc. apply Ascii.eqb_eq in Hc.
    rewrite Hs, Hc, Hw. auto.
Qed.

Lemma glossary_at_inv (prev : option ascii) (s : str) :
  glossary_at prev s = true ->
  exists w post,
    s = w ++ post /\ map lower w = str_of "glossary"
    /\ isword_opt prev = false /\ isword_opt (hd_error post) = false.
Proof.
  unfold glossary_at. intros H. apply andb_true_iff in H.
  destruct H as [Hb1 H].
  destruct (match_ci (str_of "GLOSSARY") s) as [rest|] eqn:Em; [|discriminate].
  destruct (match_ci_inv _ _ _ Em) as [w [Hs Hw]].
  change (map lower (str_of "GLOSSARY")) with (str_of "glossary") in Hw.
  exists w, rest. split; [exact Hs|]. split; [exact Hw|].
  destruct (glossary_word_head w Hw) as [c1 [w' [E1 [Hc1 _]]]].
  destruct (last_or_In w (glossary_word_nonempty w Hw) prev) as [c [Hc Hin]].
  pose proof (proj1 (glossary_word_chars w Hw c Hin)) as Hcw.
  rewrite Hs in Hb1, H.
  replace (length (str_of "GLOSSARY")) with (length w) in H
    by apply (glossary_word_length w Hw).
  rewrite firstn_length_app, Hc in H. unfold word_boundary in *.
  rewrite E1 in Hb1. simpl in Hb1, H. rewrite Hc1 in Hb1. rewrite Hcw in H.
  split.
  - now destruct (isword_opt prev).
  - now destruct (isword_opt (hd_error rest)).
Qed.

Lemma glossary_from_inv (s : str) :
  forall prev,
    glossary_from prev s = true ->
    exists pre w post,
      s = pre ++ w ++ post /\ map lower w = str_of "glossary"
      /\ isword_opt (last_or prev pre) = false
      /\ isword_opt (hd_error post) = false.
Proof.
  assert (Hat : forall prev s0, glossary_at prev s0 = true ->
            exists pre w post,
              s0 = pre ++ w ++ post /\ map lower w = str_of "glossary"
              /\ isword_opt (last_or prev pre) = false
              /\ isword_opt (hd_error post) = false).
  { intros prev s0 H. destruct (glossary_at_inv _ _ H) as [w [post H']].
    exists [], w, post. exact H'. }
  induction s as [|c s IH]; intros prev H; simpl in H.
  - rewrite orb_false_r in H. now apply Hat.
  - apply orb_true_iff in H. destruct H as [H | H]; [now apply Hat|].
    destruct (IH _ H) as [pre [w [post [Hs [Hw [Hpre Hpost]]]]]].
    exists (c :: pre), w, post. simpl. rewrite Hs. auto.
Qed.

Lemma strip_decompose (line : str) :
  exists ws1 ws2,
    line = ws1 ++ strip line ++ ws2
    /\ forallb isspace ws1 = true /\ forallb isspace ws2 = true.
Proof.
  unfold strip.
  destruct (rstrip_by_decompose isspace line) as [ws2 [E2 F2]].
  destruct (lstrip_by_decompose isspace (rstrip_by isspace line))
    as [ws1 [E1 F1]].
  exists ws1, ws2. repeat split; try assumption.
  rewrite app_assoc, <- E1. exact E2.
Qed.

Lemma last_or_spaces (ws : str) :
  forallb isspace ws = true -> isword_opt (last_or None ws) = false.
Proof.
  intros F. destruct ws as [|c ws]; [reflexivity|].
  destruct (last_or_In (c :: ws) ltac:(discriminate) None) as [x [Hx Hin]].
  rewrite Hx. simpl. apply space_not_word.
  rewrite forallb_forall in F. now apply F.
Qed.

Lemma standalone_glossary_unstrip (line : str) :
  standalone_glossary (strip line) -> standalone_glossary line.
Proof.
  intros [pre [w [post [E [Hw [Hpre Hpost]]]]]].
  destruct (strip_decompose line) as [ws1 [ws2 [Hl [F1 F2]]]].
  exists (ws1 ++ pre), w, (post ++ ws2). repeat split.
  - rewrite Hl, E, <- !app_assoc. reflexivity.
  - exact Hw.
  - rewrite last_or_app. destruct pre as [|c pre].
    + simpl. now apply last_or_spaces.
    + now rewrite (last_or_nonempty (c :: pre) ltac:(discriminate)
                     (last_or None ws1) None).
  - destruct post as [|c post]; [|exact Hpost]. simpl.
    destruct ws2 as [|x ws2]; [reflexivity|]. simpl.
    apply space_not_word. simpl in F2. apply andb_true_iff in F2. tauto.
Qed.

(** Within code points 0..255 the implication of [glossary_overrides]
    has a converse: a line classifies as the Glossary heading exactly
    when it contains the word glossary, in any letter case, with no word
    character next to it.  Beyond that range only the implication from
    right to left holds: under [re.IGNORECASE] the letter S of the pattern
    also matches U+017F, which this alphabet does not have. *)
Lemma glossary_heading_iff (line : str) (cur : option str) :
  classify_heading line cur
  = (Some (str_of "Glossary"), None, Some (str_of "Glossary"))
  <-> standalone_glossary line.
Proof.
  split.
  - unfold classify_heading.
    destruct (GLOSSARY_RE_search (strip line)) eqn:Eg.
    + intros _. apply standalone_glossary_unstrip.
      unfold GLOSSARY_RE_search in Eg. now apply glossary_from_inv.
    + destruct (CHAPTER_RE_match (strip line)) as [d|].
      * intros H. injection H as Hd Hh. subst d. discriminate.
      * destruct (SECTION_RE_match (strip line)) as [[lab ti]|];
          discriminate.
  - intros H. unfold classify_heading.
    now rewrite (standalone_glossary_search line H).
Qed.
